(** * SuperMessagePort: a model of src/lib/mtproto/superMessagePort.ts

    The class is embedded as a record of its fields and one function per
    method.  Asynchronous methods are cut at their [await]: the part up to
    the [await] is one function, the continuation another, and the host's
    event loop is the [step] function over [Event]s.  Promises handed to
    callers live in a heap inside the state, so that "settles once" is a
    statement about that heap. *)

From stdpp Require Import gmap strings list.
From Stdlib Require Import ZArith Lia.

(** ** Values, tasks, events *)

(** Ports are compared by reference in the source; a port is its identity. *)
Abbreviation Port := nat (only parsing).
Abbreviation Transferable := nat (only parsing).

(** JavaScript values a handler can return or throw, and the objects the
    port itself builds.  [VPromise ref] is a reference into the promise
    heap; [VAckedResult] is the object [{cached, result}]. *)
Inductive value : Type :=
| VUndefined
| VNull
| VBool (b : bool)
| VNumber (n : Z)
| VString (s : string)
| VError (message : string)
| VPromise (ref : nat)
| VAckedResult (cached : bool) (result : value).

(** The truthiness test of [error ? ... : ...]. *)
Definition truthy (v : value) : bool :=
  match v with
  | VUndefined | VNull => false
  | VBool b => b
  | VNumber n => negb (n =? 0)%Z
  | VString s => negb (String.eqb s EmptyString)
  | VError _ | VPromise _ | VAckedResult _ _ => true
  end.

(** Reading an optional field: an absent one reads as [undefined]. *)
Definition field (o : option value) : value := default VUndefined o.

(** [withAck?: boolean] and [void?: boolean]: only their truthiness is used. *)
Definition flag (o : option bool) : bool := default false o.

#[local] Set Warnings "-register-all".

(** [type Task = InvokeTask | ResultTask | AckTask | PingTask | PongTask |
    BatchTask]; every task has [id] and the optional [transfer]. *)
Inductive Task : Type :=
| InvokeTask (id : nat) (type : string) (payload : value)
    (withAck void : option bool) (transfer : option (list Transferable))
| ResultTask (id : nat) (taskId : nat) (result error : option value)
    (transfer : option (list Transferable))
| AckTask (id : nat) (taskId : nat) (cached : bool) (result error : option value)
    (transfer : option (list Transferable))
| PingTask (id : nat) (transfer : option (list Transferable))
| PongTask (id : nat) (transfer : option (list Transferable))
| BatchTask (id : nat) (payload : list Task) (transfer : option (list Transferable)).

Definition task_transfer (t : Task) : option (list Transferable) :=
  match t with
  | InvokeTask _ _ _ _ _ tr | ResultTask _ _ _ _ tr | AckTask _ _ _ _ _ tr
  | PingTask _ tr | PongTask _ tr | BatchTask _ _ tr => tr
  end.

(** [if(task.transfer)]: an array, even an empty one, is truthy. *)
Definition has_transfer (t : Task) : bool :=
  match task_transfer t with Some _ => true | None => false end.

(** A [MessageEvent]: [source] is [null] for messages that arrive on a
    MessagePort or a Worker. *)
Record MessageEvent : Type := {
  data : Task;
  source : option Port;
  currentTarget : Port
}.

(** [event.source], for the methods that also have a [source] parameter. *)
Definition event_source (event : MessageEvent) : option Port := source event.

(** What calling a listener does: it returns a value that is not a
    Promise, returns the Promise [h], or throws. *)
Inductive Outcome : Type :=
| Returns (v : value)
| ReturnsPromise (h : nat)
| Throws (e : value).

(** How a listener's Promise ends. *)
Inductive Settled : Type :=
| Fulfils (v : value)
| Rejects (e : value).

Definition ListenerCallback : Type := value -> Port -> MessageEvent -> Outcome.

(** What the class takes from its surroundings.  EventListenerBase is
    not among the sources: [listeners type] stands for
    [this.listeners[type]], and applying a listener to the payload, the
    source and the event for [this.invokeListenerCallback].  The rest are
    the two context constants, the optional lifecycle hooks of a port, and
    whether [port.postMessage] throws. *)
Record Env : Type := {
  listeners : string -> list ListenerCallback;
  IS_WORKER : bool;
  IS_SERVICE_WORKER : bool;
  has_start : Port -> bool;
  has_close : Port -> bool;
  post_throws : Port -> Task -> bool
}.

(** ** The state of one instance *)

(** Keys of [pending]: a port, or the [undefined] of an omitted
    destination, or the [null] of an event without source.  A JS Map keeps
    the three apart. *)
Inductive PortKey : Type :=
| KUndefined
| KNull
| KPort (p : Port).

#[global] Instance PortKey_eq_dec : EqDecision PortKey.
Proof. solve_decision. Defined.

(** An entry of [awaiting].  [resolve] and [reject] are the two functions
    of a promise; each is modelled by the promise it settles. *)
Record AwaitingEntry : Type := {
  resolve : nat;
  reject : nat;
  taskType : string
}.

Inductive PromiseState : Type :=
| Pending
| Fulfilled (v : value)
| Rejected (e : value).

(** The promise made by one [sendPing] call, with its deadline timer. *)
Inductive PingStatus : Type := PingPending | PingResolved | PingRejected.

Record PingPromise : Type := {
  ping_port : Port;
  ping_loop : bool;
  ping_status : PingStatus
}.

(** A [processInvokeTask] frame stopped at [await result]. *)
Record Suspended : Type := {
  s_promise : nat;
  s_resultId : nat;
  s_taskId : nat;
  s_source : Port
}.

(** A call that reaches the transport. *)
Inductive Send : Type :=
| Post (p : Port) (t : Task)
| NotifyAll (t : Task).

Record SuperMessagePort : Type := {
  listenPorts : list Port;
  sendPorts : list Port;
  pingResolves : gmap nat nat;
  taskId : nat;
  awaiting : gmap nat AwaitingEntry;
  pending : list (PortKey * list Task);
  releasingPending : bool;
  (* the runtime around the fields *)
  promises : list PromiseState;
  pings : list PingPromise;
  pingTimers : list Port;
  suspended : list Suspended;
  posted : list Send;
  started : list Port;
  closed : list Port
}.

(** [_constructor]; [releasingPending] starts out undefined, which is falsy. *)
Definition _constructor : SuperMessagePort :=
  {| listenPorts := []; sendPorts := []; pingResolves := ∅; taskId := 0;
     awaiting := ∅; pending := []; releasingPending := false;
     promises := []; pings := []; pingTimers := []; suspended := [];
     posted := []; started := []; closed := [] |}.

Definition set_listenPorts (x : list Port) (st : SuperMessagePort) : SuperMessagePort :=
  {| listenPorts := x; sendPorts := sendPorts st; pingResolves := pingResolves st;
     taskId := taskId st; awaiting := awaiting st; pending := pending st;
     releasingPending := releasingPending st; promises := promises st;
     pings := pings st; pingTimers := pingTimers st; suspended := suspended st;
     posted := posted st; started := started st; closed := closed st |}.

Definition set_sendPorts (x : list Port) (st : SuperMessagePort) : SuperMessagePort :=
  {| listenPorts := listenPorts st; sendPorts := x; pingResolves := pingResolves st;
     taskId := taskId st; awaiting := awaiting st; pending := pending st;
     releasingPending := releasingPending st; promises := promises st;
     pings := pings st; pingTimers := pingTimers st; suspended := suspended st;
     posted := posted st; started := started st; closed := closed st |}.

Definition set_pingResolves (x : gmap nat nat) (st : SuperMessagePort) : SuperMessagePort :=
  {| listenPorts := listenPorts st; sendPorts := sendPorts st; pingResolves := x;
     taskId := taskId st; awaiting := awaiting st; pending := pending st;
     releasingPending := releasingPending st; promises := promises st;
     pings := pings st; pingTimers := pingTimers st; suspended := suspended st;
     posted := posted st; started := started st; closed := closed st |}.

Definition set_taskId (x : nat) (st : SuperMessagePort) : SuperMessagePort :=
  {| listenPorts := listenPorts st; sendPorts := sendPorts st; pingResolves := pingResolves st;
     taskId := x; awaiting := awaiting st; pending := pending st;
     releasingPending := releasingPending st; promises := promises st;
     pings := pings st; pingTimers := pingTimers st; suspended := suspended st;
     posted := posted st; started := started st; closed := closed st |}.

Definition set_awaiting (x : gmap nat AwaitingEntry) (st : SuperMessagePort) : SuperMessagePort :=
  {| listenPorts := listenPorts st; sendPorts := sendPorts st; pingResolves := pingResolves st;
     taskId := taskId st; awaiting := x; pending := pending st;
     releasingPending := releasingPending st; promises := promises st;
     pings := pings st; pingTimers := pingTimers st; suspended := suspended st;
     posted := posted st; started := started st; closed := closed st |}.

Definition set_pending (x : list (PortKey * list Task)) (st : SuperMessagePort) : SuperMessagePort :=
  {| listenPorts := listenPorts st; sendPorts := sendPorts st; pingResolves := pingResolves st;
     taskId := taskId st; awaiting := awaiting st; pending := x;
     releasingPending := releasingPending st; promises := promises st;
     pings := pings st; pingTimers := pingTimers st; suspended := suspended st;
     posted := posted st; started := started st; closed := closed st |}.

Definition set_releasingPending (x : bool) (st : SuperMessagePort) : SuperMessagePort :=
  {| listenPorts := listenPorts st; sendPorts := sendPorts st; pingResolves := pingResolves st;
     taskId := taskId st; awaiting := awaiting st; pending := pending st;
     releasingPending := x; promises := promises st;
     pings := pings st; pingTimers := pingTimers st; suspended := suspended st;
     posted := posted st; started := started st; closed := closed st |}.

Definition set_promises (x : list PromiseState) (st : SuperMessagePort) : SuperMessagePort :=
  {| listenPorts := listenPorts st; sendPorts := sendPorts st; pingResolves := pingResolves st;
     taskId := taskId st; awaiting := awaiting st; pending := pending st;
     releasingPending := releasingPending st; promises := x;
     pings := pings st; pingTimers := pingTimers st; suspended := suspended st;
     posted := posted st; started := started st; closed := closed st |}.

Definition set_pings (x : list PingPromise) (st : SuperMessagePort) : SuperMessagePort :=
  {| listenPorts := listenPorts st; sendPorts := sendPorts st; pingResolves := pingResolves st;
     taskId := taskId st; awaiting := awaiting st; pending := pending st;
     releasingPending := releasingPending st; promises := promises st;
     pings := x; pingTimers := pingTimers st; suspended := suspended st;
     posted := posted st; started := started st; closed := closed st |}.

Definition set_pingTimers (x : list Port) (st : SuperMessagePort) : SuperMessagePort :=
  {| listenPorts := listenPorts st; sendPorts := sendPorts st; pingResolves := pingResolves st;
     taskId := taskId st; awaiting := awaiting st; pending := pending st;
     releasingPending := releasingPending st; promises := promises st;
     pings := pings st; pingTimers := x; suspended := suspended st;
     posted := posted st; started := started st; closed := closed st |}.

Definition set_suspended (x : list Suspended) (st : SuperMessagePort) : SuperMessagePort :=
  {| listenPorts := listenPorts st; sendPorts := sendPorts st; pingResolves := pingResolves st;
     taskId := taskId st; awaiting := awaiting st; pending := pending st;
     releasingPending := releasingPending st; promises := promises st;
     pings := pings st; pingTimers := pingTimers st; suspended := x;
     posted := posted st; started := started st; closed := closed st |}.

Definition set_posted (x : list Send) (st : SuperMessagePort) : SuperMessagePort :=
  {| listenPorts := listenPorts st; sendPorts := sendPorts st; pingResolves := pingResolves st;
     taskId := taskId st; awaiting := awaiting st; pending := pending st;
     releasingPending := releasingPending st; promises := promises st;
     pings := pings st; pingTimers := pingTimers st; suspended := suspended st;
     posted := x; started := started st; closed := closed st |}.

Definition set_started (x : list Port) (st : SuperMessagePort) : SuperMessagePort :=
  {| listenPorts := listenPorts st; sendPorts := sendPorts st; pingResolves := pingResolves st;
     taskId := taskId st; awaiting := awaiting st; pending := pending st;
     releasingPending := releasingPending st; promises := promises st;
     pings := pings st; pingTimers := pingTimers st; suspended := suspended st;
     posted := posted st; started := x; closed := closed st |}.

Definition set_closed (x : list Port) (st : SuperMessagePort) : SuperMessagePort :=
  {| listenPorts := listenPorts st; sendPorts := sendPorts st; pingResolves := pingResolves st;
     taskId := taskId st; awaiting := awaiting st; pending := pending st;
     releasingPending := releasingPending st; promises := promises st;
     pings := pings st; pingTimers := pingTimers st; suspended := suspended st;
     posted := posted st; started := started st; closed := x |}.

(** ** Helpers the class imports *)

(** Modelled from the spec: helpers/array/indexOfAndSplice is not among
    the sources.  It removes the item from the array ("the destination is
    removed from both the listen and send endpoint sets"); as its name
    says, by [indexOf] and [splice(idx, 1)], which take out the first
    occurrence and leave the array alone when there is none. *)
Fixpoint indexOfAndSplice (array : list Port) (item : Port) : list Port :=
  match array with
  | [] => []
  | x :: rest => if decide (x = item) then rest else x :: indexOfAndSplice rest item
  end.

(** [tasks = pending.get(port); if(!tasks) pending.set(port, tasks = []);
    tasks.push(task)]: a Map iterates in insertion order, a new key goes
    last. *)
Fixpoint pending_push (port : PortKey) (task : Task)
    (m : list (PortKey * list Task)) : list (PortKey * list Task) :=
  match m with
  | [] => [(port, [task])]
  | (k, tasks) :: rest =>
      if decide (k = port) then (k, tasks ++ [task]) :: rest
      else (k, tasks) :: pending_push port task rest
  end.

(** [pending.get(port)], an absent queue read as empty. *)
Fixpoint pending_get (port : PortKey) (m : list (PortKey * list Task)) : list Task :=
  match m with
  | [] => []
  | (k, tasks) :: rest => if decide (k = port) then tasks else pending_get port rest
  end.

(** A promise settles once: [resolve] and [reject] on a settled promise
    do nothing. *)
Definition settle (p : nat) (s : PromiseState) (heap : list PromiseState) : list PromiseState :=
  match heap !! p with
  | Some Pending => <[p := s]> heap
  | _ => heap
  end.

Definition key_of_port (port : option Port) : PortKey :=
  match port with Some p => KPort p | None => KUndefined end.

(** [event.source] used as a destination: [null] when the event has none. *)
Definition key_of_source (source : option Port) : PortKey :=
  match source with Some p => KPort p | None => KNull end.

(** ** The methods *)

Section Methods.

Context (env : Env).

(** [createTask]: [id: this.taskId++]; [mk] is the task without its id.
    The source's counter is a JavaScript number: its increment is exact
    below 2^53 and leaves the counter unchanged from there on.  The model
    counts in [nat] and agrees with the source as long as the counter is
    below 2^53; statements about fresh ids carry that bound. *)
Definition createTask (mk : nat -> Task) (st : SuperMessagePort) : Task * SuperMessagePort :=
  (mk (taskId st), set_taskId (S (taskId st)) st).

Definition createInvokeTask (type : string) (payload : value) (withAck _void : option bool)
    (transfer : option (list Transferable)) (st : SuperMessagePort) : Task * SuperMessagePort :=
  createTask (fun id => InvokeTask id type payload withAck _void transfer) st.

(** [releasePending] up to [await pause(0)]: the guard, then the flag. *)
Definition releasePending (st : SuperMessagePort) : SuperMessagePort :=
  if (length (listenPorts st) =? 0) || releasingPending st then st
  else set_releasingPending true st.

Definition pushTask (task : Task) (port : PortKey) (st : SuperMessagePort) : SuperMessagePort :=
  releasePending (set_pending (pending_push port task (pending st)) st).

(** [ports.forEach(port => port.postMessage(task, task.transfer))]: a throw
    leaves the loop (and is caught by the caller in [releasePending]). *)
Fixpoint post_each (ports : list Port) (task : Task) : list Send :=
  match ports with
  | [] => []
  | p :: rest => Post p task :: (if post_throws env p task then [] else post_each rest task)
  end.

(** [postMessage(port, task)] as called from the flush: a key that is a
    port is posted to, [undefined] and [null] fall back to [sendPorts]. *)
Definition postMessage (port : PortKey) (task : Task) (st : SuperMessagePort) : list Send :=
  post_each (match port with KPort p => [p] | KUndefined | KNull => sendPorts st end) task.

(** The body of [tasks.forEach] in the flush. *)
Definition send_task (port : PortKey) (st : SuperMessagePort) (task : Task) : SuperMessagePort :=
  set_posted
    (posted st ++ (if IS_SERVICE_WORKER env then [NotifyAll task] else postMessage port task st))
    st.

(** [batchTask] aliases the last element of [tasks]; here the open batch
    (its id and payload so far) is kept apart and joins [tasks] when it
    is closed. *)
Definition close_batch (tasks : list Task) (batchTask : option (nat * list Task)) : list Task :=
  match batchTask with
  | Some (id, payload) => tasks ++ [BatchTask id payload None]
  | None => tasks
  end.

(** [portTasks.forEach]: a task with a transfer list goes alone and
    forgets the open batch; any other joins the open batch, creating it
    when there is none. *)
Fixpoint batch_tasks (portTasks : list Task) (tasks : list Task)
    (batchTask : option (nat * list Task)) (st : SuperMessagePort)
    : list Task * SuperMessagePort :=
  match portTasks with
  | [] => (close_batch tasks batchTask, st)
  | task :: rest =>
      if has_transfer task then
        batch_tasks rest (close_batch tasks batchTask ++ [task]) None st
      else
        match batchTask with
        | Some (id, payload) => batch_tasks rest tasks (Some (id, payload ++ [task])) st
        | None =>
            let st' := set_taskId (S (taskId st)) st in
            batch_tasks rest tasks (Some (taskId st, [task])) st'
        end
  end.

(** One round of [this.pending.forEach((portTasks, port) => ...)]. *)
Definition release_port (st : SuperMessagePort) (entry : PortKey * list Task) : SuperMessagePort :=
  let '(tasks, st') := batch_tasks (snd entry) [] None st in
  fold_left (send_task (fst entry)) tasks st'.

(** [releasePending] after [await pause(0)]. *)
Definition releasePending_resume (st : SuperMessagePort) : SuperMessagePort :=
  set_releasingPending false (set_pending [] (fold_left release_port (pending st) st)).

Definition processResultTask (task : Task) (st : SuperMessagePort) : SuperMessagePort :=
  match task with
  | ResultTask _ taskId result error _ =>
      match awaiting st !! taskId with
      | None => st
      | Some deferred =>
          let heap :=
            if truthy (field error)
            then settle (reject deferred) (Rejected (field error)) (promises st)
            else settle (resolve deferred) (Fulfilled (field result)) (promises st) in
          set_awaiting (delete taskId (awaiting st)) (set_promises heap st)
      end
  | _ => st
  end.

(** [processAckTask]: the executor of [new Promise] runs at once, so the
    entry is rebound before [previousResolve(ret)]. *)
Definition processAckTask (task : Task) (st : SuperMessagePort) : SuperMessagePort :=
  match task with
  | AckTask _ taskId cached result error _ =>
      match awaiting st !! taskId with
      | None => st
      | Some deferred =>
          let previousResolve := resolve deferred in
          let q := length (promises st) in
          let ret := VAckedResult cached (VPromise q) in
          if cached then
            let inner := match result with
                         | Some r => Fulfilled r
                         | None => Rejected (field error)
                         end in
            set_promises (settle previousResolve (Fulfilled ret) (promises st ++ [inner])) st
          else
            let rebound := {| resolve := q; reject := q; taskType := taskType deferred |} in
            set_awaiting (<[taskId := rebound]> (awaiting st))
              (set_promises (settle previousResolve (Fulfilled ret) (promises st ++ [Pending])) st)
      end
  | _ => st
  end.

(** [processPingTask] answers to [event.source], not to its [source]
    parameter. *)
Definition processPingTask (task : Task) (source : Port) (event : MessageEvent)
    (st : SuperMessagePort) : SuperMessagePort :=
  let '(pong, st1) := createTask (fun id => PongTask id None) st in
  pushTask pong (key_of_source (event_source event)) st1.

(** [sendPingWithTimeout]: arms the interval timer. *)
Definition sendPingWithTimeout (port : Port) (st : SuperMessagePort) : SuperMessagePort :=
  set_pingTimers (pingTimers st ++ [port]) st.

(** The first callback of [promise.then] in [sendPing]. *)
Definition sendPing_resolved (port : Port) (loop : bool) (st : SuperMessagePort) : SuperMessagePort :=
  let st1 := set_pingResolves (delete port (pingResolves st)) st in
  if loop then sendPingWithTimeout port st1 else st1.

(** The second callback of [promise.then] in [sendPing]. *)
Definition sendPing_rejected (port : Port) (st : SuperMessagePort) : SuperMessagePort :=
  let st1 := set_pingResolves (delete port (pingResolves st)) st in
  let st2 := set_listenPorts (indexOfAndSplice (listenPorts st1) port) st1 in
  let st3 := set_sendPorts (indexOfAndSplice (sendPorts st2) port) st2 in
  if has_close env port then set_closed (closed st3 ++ [port]) st3 else st3.

(** Calling the [resolve] of ping promise [k]. *)
Definition pingResolve (k : nat) (st : SuperMessagePort) : SuperMessagePort :=
  match pings st !! k with
  | Some {| ping_port := port; ping_loop := loop; ping_status := PingPending |} =>
      sendPing_resolved port loop
        (set_pings (<[k := {| ping_port := port; ping_loop := loop;
                              ping_status := PingResolved |}]> (pings st)) st)
  | _ => st
  end.

Definition processPongTask (task : Task) (source : Port) (event : MessageEvent)
    (st : SuperMessagePort) : SuperMessagePort :=
  match pingResolves st !! source with
  | Some k => pingResolve k (set_pingResolves (delete source (pingResolves st)) st)
  | None => st
  end.

(** The [catch] block of [processInvokeTask], entered before any
    [await]: [ackTask.payload.cached] still has its initial [true]. *)
Definition invoke_caught (void : bool) (id resultId : nat) (ackId : option nat)
    (source : Port) (error : value) (st : SuperMessagePort) : SuperMessagePort :=
  if void then st
  else
    match ackId with
    | Some a => pushTask (AckTask a id true None (Some error) None) (KPort source) st
    | None => pushTask (ResultTask resultId id None (Some error) None) (KPort source) st
    end.

(** [processInvokeTask] up to its [await].  [resultId] is the id of
    [resultTask], which exists when the call is not void; [ackId] that of
    [ackTask], which exists when [withAck] is set. *)
Definition processInvokeTask (task : Task) (source : Port) (event : MessageEvent)
    (st : SuperMessagePort) : SuperMessagePort :=
  match task with
  | InvokeTask id type payload withAck void _ =>
      let resultId := taskId st in
      let st1 := if flag void then st else set_taskId (S (taskId st)) st in
      let '(ackId, st2) :=
        if flag withAck then (Some (taskId st1), set_taskId (S (taskId st1)) st1)
        else (None, st1) in
      match listeners env type with
      | [] => invoke_caught (flag void) id resultId ackId source (VError "no listener"%string) st2
      | listener :: _ =>
          match listener payload source event with
          | Throws error => invoke_caught (flag void) id resultId ackId source error st2
          | Returns result =>
              if flag void then st2
              else
                match ackId with
                | Some a =>
                    pushTask (AckTask a id true (Some result) None None) (KPort source) st2
                | None =>
                    pushTask (ResultTask resultId id (Some result) None None) (KPort source) st2
                end
          | ReturnsPromise h =>
              if flag void then st2
              else
                let st3 :=
                  match ackId with
                  | Some a => pushTask (AckTask a id false None None None) (KPort source) st2
                  | None => st2
                  end in
                set_suspended
                  (suspended st3 ++ [{| s_promise := h; s_resultId := resultId;
                                        s_taskId := id; s_source := source |}]) st3
          end
      end
  | _ => st
  end.

(** [processInvokeTask] after [await result]: the value goes into
    [result]; a rejection lands in [catch], where the ack, if any, now
    says [cached: false], so the error goes into the result task. *)
Definition processInvokeTask_resume (frame : Suspended) (outcome : Settled)
    (st : SuperMessagePort) : SuperMessagePort :=
  match outcome with
  | Fulfils v =>
      pushTask (ResultTask (s_resultId frame) (s_taskId frame) (Some v) None None)
        (KPort (s_source frame)) st
  | Rejects e =>
      pushTask (ResultTask (s_resultId frame) (s_taskId frame) None (Some e) None)
        (KPort (s_source frame)) st
  end.

(** [onMessage]: a batch replays each of its tasks with the same source
    and target. *)
Fixpoint onMessage_task (task : Task) (evSource : option Port) (target : Port)
    (st : SuperMessagePort) {struct task} : SuperMessagePort :=
  let event := {| data := task; source := evSource; currentTarget := target |} in
  let source := default target evSource in
  match task with
  | BatchTask _ payload _ =>
      fold_left (fun st' t => onMessage_task t evSource target st') payload st
  | ResultTask _ _ _ _ _ => processResultTask task st
  | AckTask _ _ _ _ _ _ => processAckTask task st
  | InvokeTask _ _ _ _ _ _ => processInvokeTask task source event st
  | PingTask _ _ => processPingTask task source event st
  | PongTask _ _ => processPongTask task source event st
  end.

Definition onMessage (event : MessageEvent) (st : SuperMessagePort) : SuperMessagePort :=
  onMessage_task (data event) (event_source event) (currentTarget event) st.

(** [sendPing]: the executor stores [resolve], pushes the ping and arms
    the deadline timer of the new promise. *)
Definition sendPing (port : Port) (loop : bool) (st : SuperMessagePort) : SuperMessagePort :=
  let k := length (pings st) in
  let st1 := set_pings (pings st ++ [{| ping_port := port; ping_loop := loop;
                                         ping_status := PingPending |}]) st in
  let st2 := set_pingResolves (<[port := k]> (pingResolves st1)) st1 in
  let '(ping, st3) := createTask (fun id => PingTask id None) st2 in
  pushTask ping (KPort port) st3.

Definition attachListenPort (port : Port) (st : SuperMessagePort) : SuperMessagePort :=
  set_listenPorts (listenPorts st ++ [port]) st.

Definition attachSendPort (port : Port) (st : SuperMessagePort) : SuperMessagePort :=
  let st1 := if has_start env port then set_started (started st ++ [port]) st else st in
  let st2 := set_sendPorts (sendPorts st1 ++ [port]) st1 in
  sendPing port (IS_WORKER env) st2.

Definition attachPort (port : Port) (st : SuperMessagePort) : SuperMessagePort :=
  attachSendPort port (attachListenPort port st).

Definition invokeVoid (type : string) (payload : value) (port : option Port)
    (transfer : option (list Transferable)) (st : SuperMessagePort) : SuperMessagePort :=
  let '(task, st1) := createInvokeTask type payload None (Some true) transfer st in
  pushTask task (key_of_port port) st1.

(** [invoke] returns the promise it made.  The interval that logs a late
    reply in a worker changes nothing in the state. *)
Definition invoke (type : string) (payload : value) (withAck : option bool)
    (port : option Port) (transfer : option (list Transferable))
    (st : SuperMessagePort) : nat * SuperMessagePort :=
  let promise := length (promises st) in
  let st1 := set_promises (promises st ++ [Pending]) st in
  let '(task, st2) := createInvokeTask type payload withAck None transfer st1 in
  let entry := {| resolve := promise; reject := promise; taskType := type |} in
  let st3 := set_awaiting (<[taskId st1 := entry]> (awaiting st2)) st2 in
  (promise, pushTask task (key_of_port port) st3).

Definition invokeExceptSource (type : string) (payload : value) (source : option Port)
    (st : SuperMessagePort) : SuperMessagePort :=
  let ports := match source with
               | Some s => indexOfAndSplice (sendPorts st) s
               | None => sendPorts st
               end in
  fold_left (fun st' target => invokeVoid type payload (Some target) None st') ports st.

(** ** The event loop *)

(** The timer callback of [sendPing]: [reject()] on ping promise [k]. *)
Definition pingDeadline (k : nat) (st : SuperMessagePort) : SuperMessagePort :=
  match pings st !! k with
  | Some {| ping_port := port; ping_loop := loop; ping_status := PingPending |} =>
      sendPing_rejected port
        (set_pings (<[k := {| ping_port := port; ping_loop := loop;
                              ping_status := PingRejected |}]> (pings st)) st)
  | _ => st
  end.

(** The timer callback of [sendPingWithTimeout], when it is armed. *)
Definition pingInterval (port : Port) (st : SuperMessagePort) : SuperMessagePort :=
  if decide (port ∈ pingTimers st) then
    let st1 := set_pingTimers (indexOfAndSplice (pingTimers st) port) st in
    if decide (port ∈ sendPorts st1) then sendPing port (IS_WORKER env) st1 else st1
  else st.

(** A listener's Promise settles: the frames that await it go on, in the
    order they stopped. *)
Definition handlerSettled (h : nat) (outcome : Settled) (st : SuperMessagePort) : SuperMessagePort :=
  let waiting := filter (fun f => s_promise f = h) (suspended st) in
  let others := filter (fun f => s_promise f ≠ h) (suspended st) in
  fold_left (fun st' f => processInvokeTask_resume f outcome st') waiting
    (set_suspended others st).

Inductive Event : Type :=
| EAttachPort (port : Port)
| EAttachListenPort (port : Port)
| EAttachSendPort (port : Port)
| EInvoke (type : string) (payload : value) (withAck : option bool)
    (port : option Port) (transfer : option (list Transferable))
| EInvokeVoid (type : string) (payload : value) (port : option Port)
    (transfer : option (list Transferable))
| EInvokeExceptSource (type : string) (payload : value) (source : option Port)
| EMessage (event : MessageEvent)
| EFlush
| EPingDeadline (k : nat)
| EPingInterval (port : Port)
| EHandlerSettled (h : nat) (outcome : Settled).

Definition step (st : SuperMessagePort) (e : Event) : SuperMessagePort :=
  match e with
  | EAttachPort port => attachPort port st
  | EAttachListenPort port => attachListenPort port st
  | EAttachSendPort port => attachSendPort port st
  | EInvoke type payload withAck port transfer =>
      snd (invoke type payload withAck port transfer st)
  | EInvokeVoid type payload port transfer => invokeVoid type payload port transfer st
  | EInvokeExceptSource type payload source => invokeExceptSource type payload source st
  | EMessage event => onMessage event st
  | EFlush => if releasingPending st then releasePending_resume st else st
  | EPingDeadline k => pingDeadline k st
  | EPingInterval port => pingInterval port st
  | EHandlerSettled h outcome => handlerSettled h outcome st
  end.

Definition run (events : list Event) (st : SuperMessagePort) : SuperMessagePort :=
  fold_left step events st.

End Methods.

(** ** Two instances talking *)

(** The tasks an instance has posted to port [p] since state [before]. *)
Definition new_posts (before after : SuperMessagePort) (p : Port) : list Task :=
  omap (fun s => match s with
                 | Post q t => if decide (q = p) then Some t else None
                 | NotifyAll _ => None
                 end)
       (drop (length (posted before)) (posted after)).

(** The transport hands [tasks] over, one message event each. *)
Definition deliver (env : Env) (tasks : list Task) (evSource : option Port) (target : Port)
    (st : SuperMessagePort) : SuperMessagePort :=
  fold_left (fun st' t => onMessage env {| data := t; source := evSource;
                                            currentTarget := target |} st') tasks st.

(** What one transport call of the flush looks like for a task queued
    under a port. *)
Definition transport (env : Env) (port : Port) (task : Task) : Send :=
  if IS_SERVICE_WORKER env then NotifyAll task else Post port task.

(** The task a reply refers to. *)
Definition reply_to (task : Task) : option nat :=
  match task with
  | ResultTask _ taskId _ _ _ | AckTask _ taskId _ _ _ _ => Some taskId
  | _ => None
  end.

(** A small handler table: ["sync"] returns 7, ["defer"] returns the
    Promise 0, ["throw"] throws its argument, nothing else is registered. *)
Definition demo_listeners (type : string) : list ListenerCallback :=
  if String.eqb type "sync" then [fun _ _ _ => Returns (VNumber 7)]
  else if String.eqb type "defer" then [fun _ _ _ => ReturnsPromise 0]
  else if String.eqb type "throw" then [fun payload _ _ => Throws payload]
  else [].

Definition demo_env : Env :=
  {| listeners := demo_listeners; IS_WORKER := false; IS_SERVICE_WORKER := false;
     has_start := fun _ => false; has_close := fun _ => true;
     post_throws := fun _ _ => false |}.

(** A window and its worker.  The window holds the Worker object (port 1),
    the worker its own global scope (port 2); messages between the two
    carry no [event.source]. *)
Definition window0 : SuperMessagePort := run demo_env [EAttachPort 1; EFlush] _constructor.
Definition worker0 : SuperMessagePort := run demo_env [EAttachPort 2; EFlush] _constructor.

(** The window invokes [type] on the worker; the worker dispatches and
    flushes; the window reads the replies.  Returns the caller's promise,
    the window and the worker. *)
Definition call (type : string) (payload : value) (withAck : option bool)
    : nat * SuperMessagePort * SuperMessagePort :=
  let '(p, w1) := invoke type payload withAck (Some 1) None window0 in
  let w2 := step demo_env w1 EFlush in
  let k1 := step demo_env (deliver demo_env (new_posts window0 w2 1) None 2 worker0) EFlush in
  let w3 := deliver demo_env (new_posts worker0 k1 2) None 1 w2 in
  (p, w3, k1).

(** The same, and then the listener's Promise settles, the worker flushes
    and the window reads again. *)
Definition call_settled (type : string) (payload : value) (withAck : option bool)
    (outcome : Settled) : nat * SuperMessagePort * SuperMessagePort :=
  let '(p, w3, k1) := call type payload withAck in
  let k2 := run demo_env [EHandlerSettled 0 outcome; EFlush] k1 in
  (p, deliver demo_env (new_posts k1 k2 2) None 1 w3, k2).

(** A hub listening to two peers, 2 and 3, whose messages carry no
    [event.source]; and an instance that only listens. *)
Definition hub0 : SuperMessagePort :=
  run demo_env [EAttachPort 2; EAttachPort 3; EFlush] _constructor.

Definition listener0 : SuperMessagePort :=
  run demo_env [EAttachListenPort 2] _constructor.

(** The transport calls made since [before]. *)
Definition new_sends (before after : SuperMessagePort) : list Send :=
  drop (length (posted before)) (posted after).

(** ** Vocabulary of the statements *)

(** A task without a transfer list. *)
Definition plain (t : Task) : Prop := has_transfer t = false.

(** The Batch the flush makes of a run of plain tasks: none for an empty
    run. *)
Definition batch_of (id : nat) (tasks : list Task) : list Task :=
  match tasks with
  | [] => []
  | _ :: _ => [BatchTask id tasks None]
  end.

(** How often a port sits in an endpoint array. *)
Definition occurrences (port : Port) (ports : list Port) : nat :=
  length (filter (fun x => x = port) ports).






(** ** Vocabulary of the further properties *)

(** The tasks a message dispatches in the end: a batch stands for the
    leaves of its payload, in order, at any depth. *)
Fixpoint leaves (t : Task) : list Task :=
  match t with
  | BatchTask _ payload _ => concat (map leaves payload)
  | _ => [t]
  end.

(** What a receiver sees of one posted task after one unwrapping: the
    payload of a Batch without transfer list, else the task itself. *)
Definition unwrap (t : Task) : list Task :=
  match t with
  | BatchTask _ payload None => payload
  | _ => [t]
  end.

Definition open_payload (batchTask : option (nat * list Task)) : list Task :=
  match batchTask with Some (_, payload) => payload | None => [] end.

(** What the flush makes of a queue: a task with a transfer list as it
    is, or a Batch made by the flush. *)
Definition flush_shape (lo hi : nat) (portTasks : list Task) (t : Task) : Prop :=
  (has_transfer t = true /\ t ∈ portTasks)
  \/ exists id payload, t = BatchTask id payload None /\ payload <> []
       /\ Forall plain payload /\ lo <= id < hi.

Definition open_count (b : option (nat * list Task)) : nat :=
  match b with Some _ => 1 | None => 0 end.

Definition open_ok (lo hi : nat) (b : option (nat * list Task)) : Prop :=
  match b with
  | Some (id, payload) => payload <> [] /\ Forall plain payload /\ lo <= id < hi
  | None => True
  end.

(** The tasks among [sends] that were posted to [p]. *)
Definition to_port (p : Port) (sends : list Send) : list Task :=
  omap (fun s => match s with
                 | Post q t => if decide (q = p) then Some t else None
                 | NotifyAll _ => None
                 end) sends.

(** Whether a task queued under [key] is posted to [p] by the flush. *)
Definition reaches (st : SuperMessagePort) (key : PortKey) (p : Port) : bool :=
  match key with
  | KPort q => bool_decide (q = p)
  | KUndefined | KNull => bool_decide (p ∈ sendPorts st)
  end.

(** The ports [invokeExceptSource] calls [invokeVoid] for. *)
Definition fanout_targets (source : option Port) (st : SuperMessagePort) : list Port :=
  match source with
  | Some s => indexOfAndSplice (sendPorts st) s
  | None => sendPorts st
  end.

(** The tasks a fan-out over [targets] queues for [p], the first target
    getting the id [n]. *)
Fixpoint fanout_tasks (type : string) (payload : value) (p : Port) (n : nat)
    (targets : list Port) : list Task :=
  match targets with
  | [] => []
  | q :: rest =>
      (if decide (q = p) then [InvokeTask n type payload None (Some true) None] else [])
      ++ fanout_tasks type payload p (S n) rest
  end.

Definition task_id (t : Task) : nat :=
  match t with
  | InvokeTask id _ _ _ _ _ | ResultTask id _ _ _ _ | AckTask id _ _ _ _ _
  | PingTask id _ | PongTask id _ | BatchTask id _ _ => id
  end.

(** What every state reached from [_constructor] satisfies: the calls in
    [awaiting], the queued tasks and the Results still owed all have ids
    the counter has passed; an entry's two functions belong to one promise
    of the heap; a stored ping resolver belongs to a ping of that port
    that is still pending. *)
Definition Inv (st : SuperMessagePort) : Prop :=
  (forall i d, awaiting st !! i = Some d ->
     i < taskId st /\ resolve d = reject d /\ resolve d < length (promises st))
  /\ Forall (fun t => task_id t < taskId st) (concat (map snd (pending st)))
  /\ Forall (fun f => s_resultId f < taskId st) (suspended st)
  /\ (forall port k, pingResolves st !! port = Some k ->
        exists loop, pings st !! k = Some {| ping_port := port; ping_loop := loop;
                                             ping_status := PingPending |}).

(** From [s] to [s'] the counter has not gone back, no promise was lost
    and no settled promise has changed. *)
Definition Mono (s s' : SuperMessagePort) : Prop :=
  taskId s <= taskId s'
  /\ length (promises s) <= length (promises s')
  /\ forall p x, promises s !! p = Some x -> x <> Pending -> promises s' !! p = Some x.

Definition Keeps (s s' : SuperMessagePort) : Prop := Mono s s' /\ (Inv s -> Inv s').

(** The tasks among [sends] that went to [notifyAll]. *)
Definition notified (sends : list Send) : list Task :=
  omap (fun s => match s with NotifyAll t => Some t | Post _ _ => None end) sends.

Definition flaky_env : Env :=
  {| listeners := demo_listeners; IS_WORKER := true; IS_SERVICE_WORKER := false;
     has_start := fun _ => true; has_close := fun _ => false;
     post_throws := fun p _ => Nat.eqb p 2 |}.

Definition sw_env : Env :=
  {| listeners := demo_listeners; IS_WORKER := false; IS_SERVICE_WORKER := true;
     has_start := fun _ => false; has_close := fun _ => false;
     post_throws := fun _ _ => false |}.

(** A window with two tasks queued for port 1 and one without destination. *)
Definition busy0 : SuperMessagePort :=
  run demo_env [EInvokeVoid "sync" VNull (Some 1) None; EInvokeVoid "sync" VNull None None;
                EInvokeVoid "defer" VNull (Some 1) (Some [])] window0.

(** * Properties *)

(** ** What [pushTask] touches *)

Lemma releasePending_cases (st : SuperMessagePort) :
  releasePending st = st \/ releasePending st = set_releasingPending true st.
Proof. unfold releasePending. case_match; auto. Qed.

Lemma pushTask_listenPorts (task : Task) (port : PortKey) (st : SuperMessagePort) :
  listenPorts (pushTask task port st) = listenPorts st.
Proof. unfold pushTask, releasePending. by case_match. Qed.

Lemma pushTask_sendPorts (task : Task) (port : PortKey) (st : SuperMessagePort) :
  sendPorts (pushTask task port st) = sendPorts st.
Proof. unfold pushTask, releasePending. by case_match. Qed.

Lemma pushTask_pingResolves (task : Task) (port : PortKey) (st : SuperMessagePort) :
  pingResolves (pushTask task port st) = pingResolves st.
Proof. unfold pushTask, releasePending. by case_match. Qed.

Lemma pushTask_taskId (task : Task) (port : PortKey) (st : SuperMessagePort) :
  taskId (pushTask task port st) = taskId st.
Proof. unfold pushTask, releasePending. by case_match. Qed.

Lemma pushTask_awaiting (task : Task) (port : PortKey) (st : SuperMessagePort) :
  awaiting (pushTask task port st) = awaiting st.
Proof. unfold pushTask, releasePending. by case_match. Qed.

Lemma pushTask_promises (task : Task) (port : PortKey) (st : SuperMessagePort) :
  promises (pushTask task port st) = promises st.
Proof. unfold pushTask, releasePending. by case_match. Qed.

Lemma pushTask_pings (task : Task) (port : PortKey) (st : SuperMessagePort) :
  pings (pushTask task port st) = pings st.
Proof. unfold pushTask, releasePending. by case_match. Qed.

Lemma pushTask_pingTimers (task : Task) (port : PortKey) (st : SuperMessagePort) :
  pingTimers (pushTask task port st) = pingTimers st.
Proof. unfold pushTask, releasePending. by case_match. Qed.

Lemma pushTask_suspended (task : Task) (port : PortKey) (st : SuperMessagePort) :
  suspended (pushTask task port st) = suspended st.
Proof. unfold pushTask, releasePending. by case_match. Qed.

Lemma pushTask_posted (task : Task) (port : PortKey) (st : SuperMessagePort) :
  posted (pushTask task port st) = posted st.
Proof. unfold pushTask, releasePending. by case_match. Qed.

Lemma pushTask_started (task : Task) (port : PortKey) (st : SuperMessagePort) :
  started (pushTask task port st) = started st.
Proof. unfold pushTask, releasePending. by case_match. Qed.

Lemma pushTask_closed (task : Task) (port : PortKey) (st : SuperMessagePort) :
  closed (pushTask task port st) = closed st.
Proof. unfold pushTask, releasePending. by case_match. Qed.

Lemma pushTask_pending (task : Task) (port : PortKey) (st : SuperMessagePort) :
  pending (pushTask task port st) = pending_push port task (pending st).
Proof. unfold pushTask, releasePending. by case_match. Qed.

Create Rewrite HintDb push.

#[global] Hint Rewrite pushTask_listenPorts pushTask_sendPorts pushTask_pingResolves
  pushTask_taskId pushTask_awaiting pushTask_promises pushTask_pings pushTask_pingTimers
  pushTask_suspended pushTask_posted pushTask_started pushTask_closed pushTask_pending : push.

Lemma invoke_effect (type : string) (payload : value) (withAck : option bool)
    (port : option Port) (transfer : option (list Transferable)) (st : SuperMessagePort) :
  let '(p, st') := invoke type payload withAck port transfer st in
  let task := InvokeTask (taskId st) type payload withAck None transfer in
  p = length (promises st)
  /\ promises st' = promises st ++ [Pending]
  /\ awaiting st' = <[taskId st := {| resolve := p; reject := p; taskType := type |}]> (awaiting st)
  /\ pending st' = pending_push (key_of_port port) task (pending st)
  /\ taskId st' = S (taskId st).
Proof.
  unfold invoke. simpl. by autorewrite with push.
Qed.

(** ** Promises settle once *)

Lemma settle_pending (p : nat) (s : PromiseState) (heap : list PromiseState) :
  heap !! p = Some Pending -> settle p s heap !! p = Some s.
Proof.
  intros H. unfold settle. rewrite H.
  apply list_lookup_insert_eq. by eapply lookup_lt_Some.
Qed.

Lemma settle_settled (p : nat) (s s' : PromiseState) (heap : list PromiseState) :
  heap !! p = Some s -> s <> Pending -> settle p s' heap = heap.
Proof. intros H Hs. unfold settle. rewrite H. by destruct s. Qed.

Lemma settle_other (p q : nat) (s : PromiseState) (heap : list PromiseState) :
  p <> q -> settle p s heap !! q = heap !! q.
Proof.
  intros Hne. unfold settle.
  destruct (heap !! p) as [[| |]|]; try done. by apply list_lookup_insert_ne.
Qed.

Lemma settle_length (p : nat) (s : PromiseState) (heap : list PromiseState) :
  length (settle p s heap) = length heap.
Proof.
  unfold settle. destruct (heap !! p) as [[| |]|]; try done. apply length_insert.
Qed.

(** ** Replies nobody waits for *)

(** C10: a Result or an Ack whose [taskId] has no entry in [awaiting]
    leaves the whole instance as it was (no entry made or changed, nothing
    queued or posted), and inside a Batch the tasks after it are
    dispatched as if it had not been there. *)
Theorem unmatched_reply_ignored (env : Env) (st : SuperMessagePort) (task : Task)
    (evSource : option Port) (target : Port) (i : nat) :
  reply_to task = Some i ->
  awaiting st !! i = None ->
  onMessage env {| data := task; source := evSource; currentTarget := target |} st = st
  /\ forall (b : nat) (rest : list Task) (tr : option (list Transferable)),
       onMessage env {| data := BatchTask b (task :: rest) tr; source := evSource;
                        currentTarget := target |} st
       = onMessage env {| data := BatchTask b rest tr; source := evSource;
                          currentTarget := target |} st.
Proof.
  intros Hreply Hnone.
  assert (Hone : onMessage_task env task evSource target st = st).
  { destruct task; simpl in Hreply; try discriminate;
      injection Hreply as ->; simpl; by rewrite Hnone. }
  split; [exact Hone|].
  intros b rest tr. unfold onMessage. simpl. by rewrite Hone.
Qed.

Lemma unmatched_reply_ignored_witness :
  onMessage demo_env {| data := ResultTask 5 9 (Some VNull) None None; source := None;
                        currentTarget := 1 |} window0 = window0
  /\ forall (b : nat) (rest : list Task) (tr : option (list Transferable)),
       onMessage demo_env {| data := BatchTask b (ResultTask 5 9 (Some VNull) None None :: rest) tr;
                             source := None; currentTarget := 1 |} window0
       = onMessage demo_env {| data := BatchTask b rest tr; source := None;
                               currentTarget := 1 |} window0.
Proof.
  apply (unmatched_reply_ignored demo_env window0 (ResultTask 5 9 (Some VNull) None None)
           None 1 9); reflexivity.
Defined.

(** ** Void calls *)

Lemma processInvokeTask_void (env : Env) (st : SuperMessagePort) (id : nat) (type : string)
    (payload : value) (withAck : option bool) (transfer : option (list Transferable))
    (source : Port) (event : MessageEvent) :
  let st' := processInvokeTask env
               (InvokeTask id type payload withAck (Some true) transfer) source event st in
  pending st' = pending st /\ posted st' = posted st /\ suspended st' = suspended st
  /\ releasingPending st' = releasingPending st.
Proof.
  simpl. destruct (flag withAck); simpl;
    (destruct (listeners env type) as [|listener rest]; [done|]);
    by destruct (listener payload source event).
Qed.

(** C7: the task [invokeVoid] queues is an Invoke marked void without
    ack; a receiver that dispatches it, alone or inside a Batch, with any
    listener table, ends in the state it started from: nothing is queued,
    nothing is posted now or by the next flush, and no frame waits for a
    deferred outcome. *)
Theorem invokeVoid_no_reply (env : Env) (sender receiver : SuperMessagePort)
    (type : string) (payload : value) (port : option Port)
    (transfer : option (list Transferable)) (evSource : option Port) (target : Port) :
  let task := InvokeTask (taskId sender) type payload None (Some true) transfer in
  invokeVoid type payload port transfer sender
    = pushTask task (key_of_port port) (set_taskId (S (taskId sender)) sender)
  /\ onMessage env {| data := task; source := evSource; currentTarget := target |} receiver
     = receiver
  /\ (forall b tr,
        onMessage env {| data := BatchTask b [task] tr; source := evSource;
                         currentTarget := target |} receiver = receiver)
  /\ forall (h : nat) (outcome : Settled),
       handlerSettled h outcome
         (onMessage env {| data := task; source := evSource; currentTarget := target |} receiver)
       = handlerSettled h outcome receiver.
Proof.
  intros task.
  assert (Hone : onMessage env {| data := task; source := evSource;
                                  currentTarget := target |} receiver = receiver).
  { unfold onMessage, task. simpl.
    destruct (listeners env type) as [|listener rest]; [done|].
    by destruct (listener payload _ _). }
  split; [reflexivity|]. split; [exact Hone|]. split.
  - intros b tr. exact Hone.
  - intros h outcome. by rewrite Hone.
Qed.

(** ** The awaiting table *)

Lemma invoke_registers_entry (type : string) (payload : value) (withAck : option bool)
    (port : option Port) (transfer : option (list Transferable)) (st : SuperMessagePort) :
  let '(p, st') := invoke type payload withAck port transfer st in
  p = length (promises st)
  /\ awaiting st' !! taskId st = Some {| resolve := p; reject := p; taskType := type |}
  /\ promises st' !! p = Some Pending
  /\ taskId st' = S (taskId st).
Proof.
  unfold invoke, pushTask, releasePending. simpl.
  repeat split; try (by case_match; simpl; rewrite ?lookup_insert_eq).
  case_match; simpl;
    by rewrite lookup_app_r, Nat.sub_diag by lia.
Qed.

Lemma processResultTask_removes_entry (id i : nat) (result error : option value)
    (tr : option (list Transferable)) (st : SuperMessagePort) :
  awaiting (processResultTask (ResultTask id i result error tr) st) !! i = None.
Proof.
  simpl. destruct (awaiting st !! i) eqn:E; [|done].
  simpl. apply lookup_delete_eq.
Qed.

Lemma processAckTask_keeps_entry (id i : nat) (cached : bool) (result error : option value)
    (tr : option (list Transferable)) (st : SuperMessagePort) (d : AwaitingEntry) :
  awaiting st !! i = Some d ->
  is_Some (awaiting (processAckTask (AckTask id i cached result error tr) st) !! i).
Proof.
  intros H. simpl. rewrite H. destruct cached; simpl.
  - by rewrite H.
  - by rewrite lookup_insert_eq.
Qed.

(** C1, at the failing input: the window invokes ["sync"] with an ack, the
    worker answers with the cached Ack and keeps no frame that could send
    a Result later; the window has settled the call and still holds its
    entry in [awaiting]. *)
Theorem cached_ack_keeps_entry :
  let '(p, window, worker) := call "sync" VNull (Some true) in
  new_sends worker0 worker
    = [Post 2 (BatchTask 4 [AckTask 3 2 true (Some (VNumber 7)) None None] None)]
  /\ suspended worker = []
  /\ promises window !! p = Some (Fulfilled (VAckedResult true (VPromise 1)))
  /\ awaiting window !! 2 = Some {| resolve := 0; reject := 0; taskType := "sync" |}.
Proof. vm_compute. repeat split. Qed.

(** ** Errors on the way back *)

Lemma processResultTask_rejects (id i : nat) (result error : option value)
    (tr : option (list Transferable)) (st : SuperMessagePort) (d : AwaitingEntry) :
  awaiting st !! i = Some d ->
  promises st !! reject d = Some Pending ->
  truthy (field error) = true ->
  promises (processResultTask (ResultTask id i result error tr) st) !! reject d
    = Some (Rejected (field error)).
Proof.
  intros Hd Hp He. simpl. rewrite Hd. simpl. rewrite He. simpl.
  by apply settle_pending.
Qed.

(** An error that is falsy, or absent, counts as no error. *)
Lemma processResultTask_fulfils (id i : nat) (result error : option value)
    (tr : option (list Transferable)) (st : SuperMessagePort) (d : AwaitingEntry) :
  awaiting st !! i = Some d ->
  promises st !! resolve d = Some Pending ->
  truthy (field error) = false ->
  promises (processResultTask (ResultTask id i result error tr) st) !! resolve d
    = Some (Fulfilled (field result)).
Proof.
  intros Hd Hp He. simpl. rewrite Hd. simpl. rewrite He. simpl.
  by apply settle_pending.
Qed.

(** C2, at the failing input: a listener that throws 0, and one whose
    Promise rejects with undefined.  The Result carries the error, and
    the caller's promise is fulfilled with undefined instead of being
    rejected. *)
Theorem falsy_error_fulfils :
  (let '(p, window, worker) := call "throw" (VNumber 0) None in
   new_sends worker0 worker
     = [Post 2 (BatchTask 3 [ResultTask 2 2 None (Some (VNumber 0)) None] None)]
   /\ promises window !! p = Some (Fulfilled VUndefined))
  /\ (let '(p, window, worker) := call_settled "defer" VNull None (Rejects VUndefined) in
      new_sends worker0 worker
        = [Post 2 (BatchTask 3 [ResultTask 2 2 None (Some VUndefined) None] None)]
      /\ promises window !! p = Some (Fulfilled VUndefined)).
Proof. vm_compute. repeat split. Qed.

(** C4, at the failing input: with an ack, a listener whose Promise
    rejects with 0.  The Ack says [cached: false] and has no payload, the
    first promise holds [{cached: false, result: }] with the second
    promise, the entry is rebound to it, and the Result then fulfils the
    second promise with undefined instead of rejecting it with 0. *)
Theorem deferred_falsy_error_fulfils :
  (let '(p, window, worker) := call "defer" VNull (Some true) in
   new_sends worker0 worker = [Post 2 (BatchTask 4 [AckTask 3 2 false None None None] None)]
   /\ promises window = [Fulfilled (VAckedResult false (VPromise 1)); Pending]
   /\ awaiting window !! 2 = Some {| resolve := 1; reject := 1; taskType := "defer" |})
  /\ (let '(p, window, worker) :=
        call_settled "defer" VNull (Some true) (Rejects (VNumber 0)) in
      new_sends worker0 worker
        = [Post 2 (BatchTask 4 [AckTask 3 2 false None None None] None);
           Post 2 (BatchTask 5 [ResultTask 2 2 None (Some (VNumber 0)) None] None)]
      /\ promises window = [Fulfilled (VAckedResult false (VPromise 1)); Fulfilled VUndefined]).
Proof. vm_compute. repeat split. Qed.

(** ** Pings from a source the event does not name *)

Lemma processPingTask_with_source (task : Task) (source p : Port) (event : MessageEvent)
    (st : SuperMessagePort) :
  event_source event = Some p ->
  processPingTask task source event st
    = pushTask (PongTask (taskId st) None) (KPort p) (set_taskId (S (taskId st)) st).
Proof. intros H. unfold processPingTask. simpl. by rewrite H. Qed.

(** C8, at the failing input: a Ping arrives on port 2 in an event without
    [source].  The hub posts the Pong to both of its send ports, 2 and 3;
    an instance without send ports posts it to nobody. *)
Theorem ping_without_source_broadcasts :
  new_sends hub0
    (run demo_env [EMessage {| data := PingTask 0 None; source := None; currentTarget := 2 |};
                   EFlush] hub0)
    = [Post 2 (BatchTask 5 [PongTask 4 None] None);
       Post 3 (BatchTask 5 [PongTask 4 None] None)]
  /\ posted
       (run demo_env [EMessage {| data := PingTask 0 None; source := None; currentTarget := 2 |};
                      EFlush] listener0) = [].
Proof. vm_compute. split; reflexivity. Qed.

(** ** The cached Ack *)

(** C3, where the letter of the claim fails: the window's promise holds
    [{cached: true, result: }] with a Promise, not with the 7 the
    listener returned. *)
Lemma cached_ack_result_is_a_promise :
  let '(p, window, _) := call "sync" VNull (Some true) in
  promises window !! p <> Some (Fulfilled (VAckedResult true (VNumber 7))).
Proof. vm_compute. discriminate. Qed.

(** C3, amended: [invoke] with an ack queues the Invoke; a receiver whose
    first listener returns [v], no Promise, queues exactly one task for
    the source, the Ack with [cached: true] and [result: v], and keeps no
    frame that could send a Result; on that Ack the caller's promise [p]
    is fulfilled with [{cached: true, result: q}], where [q] is a new
    promise already fulfilled with [v]. *)
Theorem ack_of_sync_outcome (envC envR : Env) (caller receiver : SuperMessagePort)
    (type : string) (payload : value) (port : option Port)
    (transfer : option (list Transferable)) (listener : ListenerCallback)
    (rest : list ListenerCallback) (v : value) (evSource : option Port) (target : Port)
    (ackSource : option Port) (ackTarget : Port) :
  let task := InvokeTask (taskId caller) type payload (Some true) None transfer in
  let event := {| data := task; source := evSource; currentTarget := target |} in
  let ack := AckTask (S (taskId receiver)) (taskId caller) true (Some v) None None in
  listeners envR type = listener :: rest ->
  listener payload (default target evSource) event = Returns v ->
  let '(p, caller1) := invoke type payload (Some true) port transfer caller in
  let receiver1 := onMessage envR event receiver in
  let caller2 := onMessage envC {| data := ack; source := ackSource;
                                   currentTarget := ackTarget |} caller1 in
  pending caller1 = pending_push (key_of_port port) task (pending caller)
  /\ receiver1 = pushTask ack (KPort (default target evSource))
                   (set_taskId (S (S (taskId receiver))) receiver)
  /\ suspended receiver1 = suspended receiver
  /\ promises caller2 !! p = Some (Fulfilled (VAckedResult true (VPromise (S p))))
  /\ promises caller2 !! S p = Some (Fulfilled v).
Proof.
  intros task event ack Hl Hv.
  pose proof (invoke_effect type payload (Some true) port transfer caller) as Hinv.
  destruct (invoke type payload (Some true) port transfer caller) as [p caller1].
  destruct Hinv as (Hp & Hpr & Haw & Hpe & _).
  split; [exact Hpe|].
  assert (Hrecv : onMessage envR event receiver
            = pushTask ack (KPort (default target evSource))
                (set_taskId (S (S (taskId receiver))) receiver)).
  { unfold onMessage, event, task. simpl. rewrite Hl. fold task. fold event.
    by rewrite Hv. }
  split; [exact Hrecv|]. split.
  { rewrite Hrecv. by autorewrite with push. }
  unfold onMessage, ack. simpl. rewrite Haw, lookup_insert_eq. simpl.
  rewrite Hpr, length_app, <- Hp. simpl. rewrite Nat.add_1_r.
  split.
  - rewrite settle_pending; [done|].
    rewrite lookup_app_l by (rewrite length_app; simpl; lia).
    by rewrite lookup_app_r, Hp, Nat.sub_diag by lia.
  - rewrite settle_other by lia.
    rewrite lookup_app_r by (rewrite length_app; simpl; lia).
    by rewrite length_app, <- Hp, Nat.add_1_r, Nat.sub_diag.
Qed.

Lemma ack_of_sync_outcome_witness :
  let task := InvokeTask 2 "sync" VNull (Some true) None None in
  let ack := AckTask 3 2 true (Some (VNumber 7)) None None in
  let '(p, caller1) := invoke "sync" VNull (Some true) (Some 1) None window0 in
  let receiver1 := onMessage demo_env {| data := task; source := None;
                                         currentTarget := 2 |} worker0 in
  let caller2 := onMessage demo_env {| data := ack; source := None;
                                       currentTarget := 1 |} caller1 in
  pending caller1 = pending_push (KPort 1) task (pending window0)
  /\ receiver1 = pushTask ack (KPort 2) (set_taskId 4 worker0)
  /\ suspended receiver1 = suspended worker0
  /\ promises caller2 !! p = Some (Fulfilled (VAckedResult true (VPromise (S p))))
  /\ promises caller2 !! S p = Some (Fulfilled (VNumber 7)).
Proof.
  exact (ack_of_sync_outcome demo_env demo_env window0 worker0 "sync" VNull (Some 1) None
           (fun _ _ _ => Returns (VNumber 7)) [] (VNumber 7) None 2 None 1
           eq_refl eq_refl).
Defined.

(** ** The Ack of a deferred outcome *)

(** What holds of the two-phase path: a receiver whose first listener
    returns a Promise queues the Ack with [cached: false] and no payload
    and stops at [await]; on that Ack the caller's promise [p] is
    fulfilled with [{cached: false, result: q}], [q] a new pending
    promise, and the entry is rebound to [q]; a Result with a value then
    fulfils [q], a Result with a truthy error rejects it. *)
Lemma ack_of_deferred_outcome (envR : Env) (caller receiver : SuperMessagePort)
    (type : string) (payload : value) (port : option Port)
    (transfer : option (list Transferable)) (listener : ListenerCallback)
    (rest : list ListenerCallback) (h : nat) (evSource : option Port) (target : Port) :
  let task := InvokeTask (taskId caller) type payload (Some true) None transfer in
  let event := {| data := task; source := evSource; currentTarget := target |} in
  let ack := AckTask (S (taskId receiver)) (taskId caller) false None None None in
  let frame := {| s_promise := h; s_resultId := taskId receiver; s_taskId := taskId caller;
                  s_source := default target evSource |} in
  listeners envR type = listener :: rest ->
  listener payload (default target evSource) event = ReturnsPromise h ->
  let '(p, caller1) := invoke type payload (Some true) port transfer caller in
  let receiver1 := onMessage envR event receiver in
  let caller2 := processAckTask ack caller1 in
  receiver1 = set_suspended (suspended receiver ++ [frame])
                (pushTask ack (KPort (default target evSource))
                   (set_taskId (S (S (taskId receiver))) receiver))
  /\ promises caller2 !! p = Some (Fulfilled (VAckedResult false (VPromise (S p))))
  /\ promises caller2 !! S p = Some Pending
  /\ awaiting caller2 !! taskId caller
     = Some {| resolve := S p; reject := S p; taskType := type |}
  /\ (forall id v tr,
        promises (processResultTask (ResultTask id (taskId caller) (Some v) None tr) caller2)
          !! S p = Some (Fulfilled v))
  /\ (forall id e tr, truthy e = true ->
        promises (processResultTask (ResultTask id (taskId caller) None (Some e) tr) caller2)
          !! S p = Some (Rejected e)).
Proof.
  intros task event ack frame Hl Hh.
  pose proof (invoke_effect type payload (Some true) port transfer caller) as Hinv.
  destruct (invoke type payload (Some true) port transfer caller) as [p caller1].
  destruct Hinv as (Hp & Hpr & Haw & _ & _).
  split.
  { unfold onMessage, event, task. simpl. rewrite Hl. fold task. fold event.
    rewrite Hh. simpl. by autorewrite with push. }
  assert (Hq : length (promises caller1) = S p).
  { rewrite Hpr, length_app, <- Hp. simpl. lia. }
  assert (Hheap : promises (processAckTask ack caller1)
            = settle p (Fulfilled (VAckedResult false (VPromise (S p))))
                (promises caller1 ++ [Pending])
          /\ awaiting (processAckTask ack caller1)
             = <[taskId caller := {| resolve := S p; reject := S p; taskType := type |}]>
                 (awaiting caller1)).
  { unfold ack. simpl. rewrite Haw, lookup_insert_eq. simpl. by rewrite Hq. }
  destruct Hheap as (Hheap & Haw2).
  assert (Hp1 : promises (processAckTask ack caller1) !! p
                = Some (Fulfilled (VAckedResult false (VPromise (S p))))).
  { rewrite Hheap, settle_pending; [done|].
    rewrite lookup_app_l by lia. by rewrite Hpr, lookup_app_r, Hp, Nat.sub_diag by lia. }
  assert (Hp2 : promises (processAckTask ack caller1) !! S p = Some Pending).
  { rewrite Hheap, settle_other by lia.
    by rewrite lookup_app_r, Hq, Nat.sub_diag by lia. }
  assert (Hentry : awaiting (processAckTask ack caller1) !! taskId caller
                   = Some {| resolve := S p; reject := S p; taskType := type |}).
  { by rewrite Haw2, lookup_insert_eq. }
  split_and!; try done.
  - intros id v tr.
    by apply (processResultTask_fulfils id (taskId caller) (Some v) None tr _ _ Hentry Hp2).
  - intros id e tr He.
    by apply (processResultTask_rejects id (taskId caller) None (Some e) tr _ _ Hentry Hp2).
Qed.

(** ** The flush *)

Lemma set_taskId_same (st : SuperMessagePort) : set_taskId (taskId st) st = st.
Proof. by destruct st. Qed.

Lemma set_pending_same (st : SuperMessagePort) : set_pending (pending st) st = st.
Proof. by destruct st. Qed.

Lemma batch_tasks_open (l rest tasks : list Task) (id : nat) (payload : list Task)
    (st : SuperMessagePort) :
  Forall plain l ->
  batch_tasks (l ++ rest) tasks (Some (id, payload)) st
    = batch_tasks rest tasks (Some (id, payload ++ l)) st.
Proof.
  intros Hl. revert payload.
  induction Hl as [|t l Ht _ IH]; intros payload; simpl.
  - by rewrite app_nil_r.
  - rewrite Ht, IH. by rewrite <- app_assoc.
Qed.

Lemma batch_tasks_fresh (t : Task) (l rest tasks : list Task) (st : SuperMessagePort) :
  Forall plain (t :: l) ->
  batch_tasks ((t :: l) ++ rest) tasks None st
    = batch_tasks rest tasks (Some (taskId st, t :: l)) (set_taskId (S (taskId st)) st).
Proof.
  intros H. inversion H as [|? ? Ht Hl]; subst. simpl. rewrite Ht.
  by rewrite batch_tasks_open.
Qed.

Lemma batch_tasks_transfer (t : Task) (rest tasks : list Task)
    (batchTask : option (nat * list Task)) (st : SuperMessagePort) :
  has_transfer t = true ->
  batch_tasks (t :: rest) tasks batchTask st
    = batch_tasks rest (close_batch tasks batchTask ++ [t]) None st.
Proof. intros Ht. simpl. by rewrite Ht. Qed.

Lemma batch_tasks_tail (l tasks : list Task) (st : SuperMessagePort) :
  Forall plain l ->
  batch_tasks l tasks None st
    = (tasks ++ batch_of (taskId st) l,
       set_taskId (taskId st + length (batch_of 0 l)) st).
Proof.
  intros Hl. destruct l as [|t l].
  - simpl. by rewrite app_nil_r, Nat.add_0_r, set_taskId_same.
  - rewrite <- (app_nil_r (t :: l)) at 1. rewrite batch_tasks_fresh by done.
    simpl. by rewrite Nat.add_1_r.
Qed.

(** The tasks the flush sends for a queue of plain tasks around one task
    with a transfer list. *)
Lemma batch_tasks_split (pre post : list Task) (t : Task) (st : SuperMessagePort) :
  Forall plain pre -> has_transfer t = true -> Forall plain post ->
  batch_tasks (pre ++ t :: post) [] None st
    = (batch_of (taskId st) pre ++ [t]
         ++ batch_of (taskId st + length (batch_of 0 pre)) post,
       set_taskId (taskId st + length (batch_of 0 pre) + length (batch_of 0 post)) st).
Proof.
  intros Hpre Ht Hpost. destruct pre as [|a pre].
  - simpl app at 1. rewrite batch_tasks_transfer, batch_tasks_tail by done.
    simpl. by rewrite !Nat.add_0_r.
  - rewrite batch_tasks_fresh, batch_tasks_transfer, batch_tasks_tail by done.
    simpl. rewrite !Nat.add_1_r. by destruct st.
Qed.

Lemma batch_tasks_plain (t : Task) (l : list Task) (st : SuperMessagePort) :
  Forall plain (t :: l) ->
  batch_tasks (t :: l) [] None st
    = ([BatchTask (taskId st) (t :: l) None], set_taskId (S (taskId st)) st).
Proof.
  intros H. rewrite batch_tasks_tail by done. simpl. by rewrite Nat.add_1_r.
Qed.

Lemma send_tasks_posted (env : Env) (p : Port) (out : list Task) (st : SuperMessagePort) :
  let st' := fold_left (send_task env (KPort p)) out st in
  posted st' = posted st ++ map (transport env p) out
  /\ pending st' = pending st /\ taskId st' = taskId st.
Proof.
  revert st. induction out as [|t out IH]; intros st; simpl.
  - by rewrite app_nil_r.
  - destruct (IH (send_task env (KPort p) st t)) as (-> & -> & ->).
    split; [|done]. unfold send_task, transport, postMessage. simpl.
    rewrite <- app_assoc. f_equal. simpl.
    destruct (IS_SERVICE_WORKER env); [done|]. by destruct (post_throws env p t).
Qed.

Lemma pending_push_same (k : PortKey) (l ts : list Task) :
  fold_left (fun m t => pending_push k t m) ts [(k, l)] = [(k, l ++ ts)].
Proof.
  revert l. induction ts as [|t ts IH]; intros l; simpl.
  - by rewrite app_nil_r.
  - destruct (decide (k = k)); [|done]. by rewrite IH, <- app_assoc.
Qed.

Lemma pushTask_armed (task : Task) (k : PortKey) (st : SuperMessagePort) :
  releasingPending st = true ->
  pushTask task k st = set_pending (pending_push k task (pending st)) st.
Proof.
  intros H. unfold pushTask, releasePending. simpl. rewrite H.
  by rewrite orb_true_r.
Qed.

Lemma pushTask_arms (task : Task) (k : PortKey) (st : SuperMessagePort) :
  listenPorts st <> [] -> releasingPending st = false ->
  pushTask task k st
    = set_releasingPending true (set_pending (pending_push k task (pending st)) st).
Proof.
  intros Hl H. unfold pushTask, releasePending. simpl. rewrite H.
  by destruct (listenPorts st).
Qed.

Lemma push_all_armed (k : PortKey) (ts : list Task) (st : SuperMessagePort) :
  releasingPending st = true ->
  fold_left (fun s t => pushTask t k s) ts st
    = set_pending (fold_left (fun m t => pending_push k t m) ts (pending st)) st.
Proof.
  revert st. induction ts as [|t ts IH]; intros st H; simpl.
  - by rewrite set_pending_same.
  - rewrite pushTask_armed by done. by rewrite IH.
Qed.

Lemma push_all (k : PortKey) (t : Task) (ts : list Task) (st : SuperMessagePort) :
  listenPorts st <> [] -> releasingPending st = false -> pending st = [] ->
  fold_left (fun s t => pushTask t k s) (t :: ts) st
    = set_releasingPending true (set_pending [(k, t :: ts)] st).
Proof.
  intros Hl Hr Hp. simpl. rewrite pushTask_arms by done.
  rewrite push_all_armed by done. simpl. rewrite Hp. simpl.
  by rewrite (pending_push_same k [t] ts).
Qed.

(** C5, where the letter of the claim fails: a single queued task with a
    transfer list makes one transport call, not two. *)
Lemma lone_transfer_task_one_send :
  new_sends window0
    (run demo_env [EInvokeVoid "sync" VNull (Some 1) (Some [42]); EFlush] window0)
  = [Post 1 (InvokeTask 2 "sync" VNull None (Some true) (Some [42]))].
Proof. vm_compute. reflexivity. Qed.

(** C5, amended: with a listen port attached, no flush under way and
    nothing buffered, [tasks] are queued for [port] and the flush runs.
    If there is at least one task and none has a transfer list, the flush
    makes exactly one transport call, a Batch holding the tasks in queue
    order.  If exactly one task, [t], has a transfer list, the calls are:
    a Batch of the tasks before [t] if there are any, [t] on its own, a
    Batch of the tasks after [t] if there are any; with at least two
    tasks that is two calls or three, with [t] alone it is one.
    Afterwards the queue is empty. *)
Theorem flush_batches (env : Env) (st : SuperMessagePort) (port : Port) (tasks : list Task) :
  listenPorts st <> [] -> releasingPending st = false -> pending st = [] ->
  let queued := fold_left (fun s t => pushTask t (KPort port) s) tasks st in
  let flushed := step env queued EFlush in
  (tasks <> [] -> Forall plain tasks ->
     new_sends st flushed = [transport env port (BatchTask (taskId st) tasks None)])
  /\ (forall (pre post : list Task) (t : Task),
        tasks = pre ++ t :: post -> Forall plain pre -> has_transfer t = true ->
        Forall plain post ->
        new_sends st flushed
          = map (transport env port)
              (batch_of (taskId st) pre ++ [t]
                 ++ batch_of (taskId st + length (batch_of 0 pre)) post)
        /\ (2 <= length tasks -> 2 <= length (new_sends st flushed)))
  /\ (tasks <> [] -> pending flushed = [] /\ releasingPending flushed = false).
Proof.
  intros Hl Hr Hp queued flushed.
  assert (Hflush : forall out n,
            tasks <> [] ->
            batch_tasks tasks [] None (set_releasingPending true
              (set_pending [(KPort port, tasks)] st)) = (out, set_taskId n (set_releasingPending true
              (set_pending [(KPort port, tasks)] st))) ->
            new_sends st flushed = map (transport env port) out
            /\ pending flushed = [] /\ releasingPending flushed = false).
  { intros out n Hne Hb. unfold flushed, queued.
    destruct tasks as [|t ts]; [done|].
    rewrite push_all by done. simpl. unfold releasePending_resume. simpl.
    unfold release_port. simpl fst. simpl snd. rewrite Hb.
    split; [|done]. unfold new_sends. simpl.
    match goal with |- context [fold_left ?f out ?s] =>
      destruct (send_tasks_posted env port out s) as (-> & _) end.
    simpl. by rewrite drop_app_length. }
  split; [|split].
  - intros Hne Hplain. destruct tasks as [|t ts]; [done|].
    edestruct Hflush as (Hs & _); [done| by apply batch_tasks_plain |].
    exact Hs.
  - intros pre post t -> Hpre Ht Hpost.
    edestruct Hflush as (Hs & _).
    { by destruct pre. }
    { by apply batch_tasks_split. }
    split; [exact Hs|]. intros Hlen. rewrite Hs, length_map, !length_app in *.
    destruct pre, post; simpl in *; lia.
  - intros Hne. destruct tasks as [|t ts]; [done|].
    unfold flushed, queued. by rewrite push_all.
Qed.

Lemma flush_batches_witness :
  listenPorts window0 <> [] /\ releasingPending window0 = false /\ pending window0 = []
  /\ new_sends window0
       (step demo_env
          (fold_left (fun s t => pushTask t (KPort 1) s)
             [PongTask 7 None; PingTask 8 (Some [5]); PongTask 9 None] window0) EFlush)
     = [Post 1 (BatchTask 2 [PongTask 7 None] None); Post 1 (PingTask 8 (Some [5]));
        Post 1 (BatchTask 3 [PongTask 9 None] None)].
Proof.
  split; [discriminate|]. split; [reflexivity|]. split; [reflexivity|].
  assert (Hlisten : listenPorts window0 <> []) by discriminate.
  destruct (flush_batches demo_env window0 1
              [PongTask 7 None; PingTask 8 (Some [5]); PongTask 9 None]
              Hlisten eq_refl eq_refl) as (_ & Hsplit & _).
  destruct (Hsplit [PongTask 7 None] [PongTask 9 None] (PingTask 8 (Some [5])))
    as (Hsends & _).
  - reflexivity.
  - by repeat constructor.
  - reflexivity.
  - by repeat constructor.
  - exact Hsends.
Defined.

(** ** Enqueue-only steps *)

Lemma Task_batch_ind (P : Task -> Prop) :
  (forall id type payload withAck void tr, P (InvokeTask id type payload withAck void tr)) ->
  (forall id taskId result error tr, P (ResultTask id taskId result error tr)) ->
  (forall id taskId cached result error tr, P (AckTask id taskId cached result error tr)) ->
  (forall id tr, P (PingTask id tr)) ->
  (forall id tr, P (PongTask id tr)) ->
  (forall id payload tr, Forall P payload -> P (BatchTask id payload tr)) ->
  forall t, P t.
Proof.
  intros Hi Hr Ha Hpi Hpo Hb. fix IH 1.
  intros [ | | | | |id payload tr];
    [apply Hi|apply Hr|apply Ha|apply Hpi|apply Hpo|].
  apply Hb. induction payload as [|t rest IHrest]; constructor.
  - apply IH.
  - exact IHrest.
Qed.

Lemma pending_get_push (k k' : PortKey) (t : Task) (m : list (PortKey * list Task)) :
  pending_get k' (pending_push k t m)
    = pending_get k' m ++ (if decide (k' = k) then [t] else []).
Proof.
  induction m as [|[k0 ts] m IH]; simpl.
  - destruct (decide (k = k')), (decide (k' = k)); simpl; congruence.
  - destruct (decide (k0 = k)) as [->|Hne]; simpl.
    + destruct (decide (k = k')) as [->|Hne'].
      * by rewrite decide_True.
      * rewrite decide_False by congruence. by rewrite app_nil_r.
    + destruct (decide (k0 = k')) as [->|Hne'].
      * rewrite decide_False by congruence. by rewrite app_nil_r.
      * exact IH.
Qed.



































Lemma run_app (env : Env) (a b : list Event) (s : SuperMessagePort) :
  run env (a ++ b) s = run env b (run env a s).
Proof. apply fold_left_app. Qed.







Lemma occurrences_indexOfAndSplice (p s : Port) (l : list Port) :
  occurrences p (indexOfAndSplice l s)
    = if decide (p = s) then pred (occurrences s l) else occurrences p l.
Proof.
  unfold occurrences. induction l as [|a l IH]; simpl.
  - by destruct (decide (p = s)).
  - destruct (decide (a = s)) as [->|Hne].
    + rewrite !filter_cons. destruct (decide (p = s)) as [->|Hps].
      * by rewrite decide_True.
      * by rewrite decide_False by congruence.
    + rewrite !filter_cons. destruct (decide (p = s)) as [->|Hps].
      * by rewrite !decide_False by congruence.
      * destruct (decide (a = p)); simpl; by rewrite IH.
Qed.








(** * Further properties *)

(** ** Batches and their leaves *)

Lemma deliver_app (env : Env) (a b : list Task) (evSource : option Port) (target : Port)
    (st : SuperMessagePort) :
  deliver env (a ++ b) evSource target st
    = deliver env b evSource target (deliver env a evSource target st).
Proof. apply fold_left_app. Qed.

Lemma onMessage_batch (env : Env) (id : nat) (payload : list Task)
    (tr : option (list Transferable)) (evSource : option Port) (target : Port)
    (st : SuperMessagePort) :
  onMessage env {| data := BatchTask id payload tr; source := evSource;
                   currentTarget := target |} st
    = deliver env payload evSource target st.
Proof. reflexivity. Qed.

(** X1: dispatching a message is dispatching the leaves of its task, one
    after the other with the same source and target: a Batch is unwrapped
    at any depth, in order, and an empty Batch does nothing. *)
Theorem onMessage_leaves (env : Env) (task : Task) (evSource : option Port) (target : Port)
    (st : SuperMessagePort) :
  onMessage env {| data := task; source := evSource; currentTarget := target |} st
    = deliver env (leaves task) evSource target st.
Proof.
  revert st. induction task as [ | | | | |id payload tr IH] using Task_batch_ind;
    intros st; try reflexivity.
  rewrite onMessage_batch. simpl leaves. revert st.
  induction IH as [|t rest Ht _ IHrest]; intros st; [reflexivity|].
  simpl. rewrite deliver_app. rewrite <- IHrest. unfold deliver at 2.
  f_equal. apply Ht.
Qed.

Lemma unwrap_close_batch (tasks : list Task) (b : option (nat * list Task)) :
  concat (map unwrap (close_batch tasks b)) = concat (map unwrap tasks) ++ open_payload b.
Proof.
  destruct b as [[id payload]|]; simpl.
  - by rewrite map_app, concat_app; simpl; rewrite app_nil_r.
  - by rewrite app_nil_r.
Qed.

Lemma batch_tasks_unwrap (l tasks : list Task) (b : option (nat * list Task))
    (st : SuperMessagePort) :
  concat (map unwrap (fst (batch_tasks l tasks b st)))
    = concat (map unwrap tasks) ++ open_payload b ++ l.
Proof.
  revert tasks b st. induction l as [|t l IH]; intros tasks b st; simpl.
  - by rewrite unwrap_close_batch, app_nil_r.
  - destruct (has_transfer t) eqn:Ht.
    + rewrite IH. simpl. rewrite map_app, concat_app, unwrap_close_batch. simpl.
      unfold has_transfer in Ht. destruct t; simpl in *; destruct transfer; try discriminate;
        simpl; by rewrite <- !app_assoc.
    + destruct b as [[id payload]|]; rewrite IH; simpl; by rewrite <- ?app_assoc.
Qed.

Lemma deliver_unwrap (env : Env) (out : list Task) (evSource : option Port) (target : Port)
    (st : SuperMessagePort) :
  deliver env (concat (map unwrap out)) evSource target st
    = deliver env out evSource target st.
Proof.
  revert st. induction out as [|t out IH]; intros st; [reflexivity|].
  simpl. rewrite deliver_app, IH. f_equal.
  destruct t; try reflexivity. by destruct transfer.
Qed.

(** X2: what the flush makes of a queue, unwrapped once, is the queue
    again: no task is lost, repeated or moved; and a receiver that gets
    the flushed tasks ends in the state it would reach on the queued
    tasks one by one. *)
Theorem batch_tasks_fifo (env : Env) (portTasks : list Task) (st receiver : SuperMessagePort)
    (evSource : option Port) (target : Port) :
  let out := fst (batch_tasks portTasks [] None st) in
  concat (map unwrap out) = portTasks
  /\ deliver env out evSource target receiver
     = deliver env portTasks evSource target receiver.
Proof.
  intros out.
  assert (H : concat (map unwrap out) = portTasks) by apply batch_tasks_unwrap.
  split; [exact H|]. by rewrite <- deliver_unwrap, H.
Qed.

Lemma flush_shape_mono (lo lo' hi hi' : nat) (l l' : list Task) (t : Task) :
  lo' <= lo -> hi <= hi' -> l ⊆ l' -> flush_shape lo hi l t -> flush_shape lo' hi' l' t.
Proof.
  intros Hlo Hhi Hl [[Ht Hin]|(id & payload & -> & Hne & Hp & Hid)].
  - left. split; [done|]. by apply Hl.
  - right. exists id, payload. split_and!; try done; lia.
Qed.

Lemma close_batch_shape (lo hi : nat) (all tasks : list Task) (b : option (nat * list Task)) :
  Forall (flush_shape lo hi all) tasks -> open_ok lo hi b ->
  Forall (flush_shape lo hi all) (close_batch tasks b)
  /\ length (close_batch tasks b) = length tasks + open_count b.
Proof.
  intros Htasks Hb. destruct b as [[id payload]|]; simpl.
  - split; [|rewrite length_app; simpl; lia].
    apply Forall_app. split; [done|]. constructor; [|done].
    right. exists id, payload. by destruct Hb as (? & ? & ?).
  - split; [done|lia].
Qed.

Lemma batch_tasks_shape (l tasks : list Task) (b : option (nat * list Task))
    (st : SuperMessagePort) (lo : nat) (all : list Task) :
  l ⊆ all -> lo <= taskId st ->
  Forall (flush_shape lo (taskId st) all) tasks ->
  open_ok lo (taskId st) b ->
  let '(out, st') := batch_tasks l tasks b st in
  Forall (flush_shape lo (taskId st') all) out
  /\ taskId st <= taskId st'
  /\ length out <= length tasks + open_count b + length l.
Proof.
  revert tasks b st. induction l as [|t l IH]; intros tasks b st Hsub Hlo Htasks Hb; simpl.
  - destruct (close_batch_shape lo (taskId st) all tasks b Htasks Hb) as [H1 H2].
    split_and!; [done|lia|lia].
  - assert (Hl : l ⊆ all) by (intros x Hx; apply Hsub; by right).
    assert (Ht : t ∈ all) by (apply Hsub; by left).
    destruct (close_batch_shape lo (taskId st) all tasks b Htasks Hb) as [Hc1 Hc2].
    destruct (has_transfer t) eqn:Htr.
    + specialize (IH (close_batch tasks b ++ [t]) None st Hl Hlo).
      destruct (batch_tasks l (close_batch tasks b ++ [t]) None st) as [out st'].
      destruct IH as (H1 & H2 & H3); [|done|].
      { apply Forall_app. split; [done|]. constructor; [|done]. left. by split. }
      split_and!; try done. rewrite length_app in H3. simpl in *. lia.
    + destruct b as [[id payload]|].
      * specialize (IH tasks (Some (id, payload ++ [t])) st Hl Hlo Htasks).
        destruct (batch_tasks l tasks (Some (id, payload ++ [t])) st) as [out st'].
        destruct IH as (H1 & H2 & H3).
        { destruct Hb as (Hne & Hp & Hid). split_and!; try done; try lia.
          - by destruct payload.
          - apply Forall_app. split; [done|]. constructor; [exact Htr|done]. }
        split_and!; try done. simpl in *. lia.
      * specialize (IH tasks (Some (taskId st, [t])) (set_taskId (S (taskId st)) st) Hl).
        destruct (batch_tasks l tasks (Some (taskId st, [t])) (set_taskId (S (taskId st)) st))
          as [out st'].
        destruct IH as (H1 & H2 & H3).
        { simpl. lia. }
        { eapply Forall_impl; [exact Htasks|]. intros x. simpl.
          apply flush_shape_mono; [lia|lia|done]. }
        { simpl. split_and!; try done; try lia. constructor; [exact Htr|done]. }
        simpl in *. split_and!; try done; lia.
Qed.

(** X3: every task the flush sends for a queue is either a task of the
    queue that has a transfer list, sent as it is, or a Batch made by the
    flush, never empty, holding only tasks without transfer list, with an
    id taken from the counter during this flush; there are at most as
    many sends as queued tasks. *)
Theorem flush_sends_shape (portTasks : list Task) (st : SuperMessagePort) :
  let '(out, st') := batch_tasks portTasks [] None st in
  Forall (flush_shape (taskId st) (taskId st') portTasks) out
  /\ taskId st <= taskId st'
  /\ length out <= length portTasks.
Proof.
  pose proof (batch_tasks_shape portTasks [] None st (taskId st) portTasks) as H.
  destruct (batch_tasks portTasks [] None st) as [out st'].
  by destruct H as (H1 & H2 & H3).
Qed.

(** ** What a port gets from a flush *)

Lemma new_posts_to_port (before after : SuperMessagePort) (p : Port) :
  new_posts before after p = to_port p (new_sends before after).
Proof. reflexivity. Qed.

Lemma to_port_app (p : Port) (a b : list Send) :
  to_port p (a ++ b) = to_port p a ++ to_port p b.
Proof. apply omap_app. Qed.

Lemma batch_tasks_state (l tasks : list Task) (b : option (nat * list Task))
    (st : SuperMessagePort) :
  snd (batch_tasks l tasks b st) = set_taskId (taskId (snd (batch_tasks l tasks b st))) st.
Proof.
  revert tasks b st. induction l as [|t l IH]; intros tasks b st; simpl.
  - by rewrite set_taskId_same.
  - destruct (has_transfer t); [apply IH|].
    destruct b as [[id payload]|]; [apply IH|].
    rewrite IH at 1. done.
Qed.

Lemma post_each_no_throw (env : Env) (ports : list Port) (task : Task) :
  (forall q t, post_throws env q t = false) ->
  post_each env ports task = map (fun q => Post q task) ports.
Proof.
  intros Hno. induction ports as [|q ports IH]; simpl; [done|].
  by rewrite Hno, IH.
Qed.

Lemma to_port_posts (p : Port) (ports : list Port) (task : Task) :
  to_port p (map (fun q => Post q task) ports) = replicate (occurrences p ports) task.
Proof.
  unfold occurrences. induction ports as [|q ports IH]; simpl; [done|].
  rewrite filter_cons. destruct (decide (q = p)); simpl; by rewrite IH.
Qed.

Lemma occurrences_elem (p : Port) (ports : list Port) :
  occurrences p ports <= 1 ->
  occurrences p ports = if bool_decide (p ∈ ports) then 1 else 0.
Proof.
  unfold occurrences. intros Hle. case_bool_decide as Hin.
  - apply list_elem_of_split in Hin as (l1 & l2 & ->).
    rewrite filter_app, filter_cons, decide_True, length_app in * by done.
    simpl in *. lia.
  - induction ports as [|q ports IH]; simpl; [done|].
    rewrite filter_cons in *. apply not_elem_of_cons in Hin as [Hne Hin].
    rewrite decide_False in * by congruence. by apply IH.
Qed.

Lemma send_tasks_to_port (env : Env) (key : PortKey) (p : Port) (out : list Task)
    (st : SuperMessagePort) :
  IS_SERVICE_WORKER env = false ->
  (forall q t, post_throws env q t = false) ->
  occurrences p (sendPorts st) <= 1 ->
  let st' := fold_left (send_task env key) out st in
  (exists sends, posted st' = posted st ++ sends
                 /\ to_port p sends = if reaches st key p then out else [])
  /\ st' = set_posted (posted st') st.
Proof.
  intros Hsw Hno Hocc. revert st Hocc.
  induction out as [|t out IH]; intros st Hocc; simpl.
  - split; [|by destruct st]. exists []. rewrite app_nil_r. split; [done|].
    by destruct (reaches st key p).
  - destruct (IH (send_task env key st t)) as ((sends & Hp & Hto) & Hst); [done|].
    split.
    + exists (postMessage env key t st ++ sends). split.
      * rewrite Hp. unfold send_task. rewrite Hsw. simpl. by rewrite <- app_assoc.
      * rewrite to_port_app, Hto. unfold postMessage. rewrite post_each_no_throw by done.
        rewrite to_port_posts. unfold reaches, send_task. simpl.
        destruct key as [| |q]; simpl.
        -- rewrite occurrences_elem by done. by case_bool_decide.
        -- rewrite occurrences_elem by done. by case_bool_decide.
        -- unfold occurrences. rewrite filter_cons, filter_nil.
           case_bool_decide; [rewrite decide_True by done|rewrite decide_False by done]; done.
    + rewrite Hst at 1. unfold send_task. by destruct st.
Qed.

Lemma release_port_to_port (env : Env) (entry : PortKey * list Task) (p : Port)
    (st : SuperMessagePort) :
  IS_SERVICE_WORKER env = false ->
  (forall q t, post_throws env q t = false) ->
  occurrences p (sendPorts st) <= 1 ->
  let st' := release_port env st entry in
  (exists sends, posted st' = posted st ++ sends
                 /\ concat (map unwrap (to_port p sends))
                    = if reaches st (fst entry) p then snd entry else [])
  /\ sendPorts st' = sendPorts st.
Proof.
  intros Hsw Hno Hocc. unfold release_port.
  pose proof (batch_tasks_state (snd entry) [] None st) as Hstate.
  pose proof (batch_tasks_unwrap (snd entry) [] None st) as Hun.
  destruct (batch_tasks (snd entry) [] None st) as [out st1]. simpl in *.
  destruct (send_tasks_to_port env (fst entry) p out st1 Hsw Hno) as ((sends & Hp & Hto) & Hst).
  { by rewrite Hstate. }
  split.
  - exists sends. split; [by rewrite Hp, Hstate|].
    rewrite Hto. rewrite Hstate. unfold reaches. simpl.
    destruct (match fst entry with
              | KPort q => bool_decide (q = p)
              | _ => bool_decide (p ∈ sendPorts st)
              end); [exact Hun|done].
  - rewrite Hst. simpl. by rewrite Hstate.
Qed.

Lemma release_all_to_port (env : Env) (m : list (PortKey * list Task)) (p : Port)
    (st : SuperMessagePort) :
  IS_SERVICE_WORKER env = false ->
  (forall q t, post_throws env q t = false) ->
  occurrences p (sendPorts st) <= 1 ->
  exists sends,
    posted (fold_left (release_port env) m st) = posted st ++ sends
    /\ concat (map unwrap (to_port p sends))
       = concat (map (fun e => if reaches st (fst e) p then snd e else []) m).
Proof.
  intros Hsw Hno. revert st. induction m as [|e m IH]; intros st Hocc; simpl.
  - exists []. by rewrite app_nil_r.
  - destruct (release_port_to_port env e p st Hsw Hno Hocc) as ((s1 & Hp1 & Hu1) & Hsp).
    destruct (IH (release_port env st e)) as (s2 & Hp2 & Hu2); [by rewrite Hsp|].
    exists (s1 ++ s2). split.
    + by rewrite Hp2, Hp1, <- app_assoc.
    + rewrite to_port_app, map_app, concat_app, Hu1, Hu2. f_equal.
      f_equal. apply map_ext. intros a. unfold reaches. by rewrite Hsp.
Qed.

Lemma releasePending_resume_to_port (env : Env) (st : SuperMessagePort) (p : Port) :
  IS_SERVICE_WORKER env = false ->
  (forall q t, post_throws env q t = false) ->
  occurrences p (sendPorts st) <= 1 ->
  concat (map unwrap (new_posts st (releasePending_resume env st) p))
    = concat (map (fun e => if reaches st (fst e) p then snd e else []) (pending st)).
Proof.
  intros Hsw Hno Hocc.
  destruct (release_all_to_port env (pending st) p st Hsw Hno Hocc) as (sends & Hp & Hu).
  rewrite new_posts_to_port. unfold new_sends, releasePending_resume. simpl.
  by rewrite Hp, drop_app_length.
Qed.

(** X4: outside a service worker and when no [postMessage] throws, the
    flush posts to a port that sits at most once in [sendPorts] exactly
    the tasks queued for it and the tasks queued without destination (if
    it is a send port), each once, queue after queue in the order of the
    Map and in queue order inside; then the queues are empty and the flag
    is down. *)
Theorem flush_per_destination (env : Env) (st : SuperMessagePort) (p : Port) :
  IS_SERVICE_WORKER env = false ->
  (forall q t, post_throws env q t = false) ->
  occurrences p (sendPorts st) <= 1 ->
  let st' := releasePending_resume env st in
  concat (map unwrap (new_posts st st' p))
    = concat (map (fun e => if reaches st (fst e) p then snd e else []) (pending st))
  /\ pending st' = [] /\ releasingPending st' = false.
Proof.
  intros Hsw Hno Hocc st'. split; [|done].
  by apply releasePending_resume_to_port.
Qed.

Lemma occurrences_not_elem (p : Port) (ports : list Port) :
  p ∉ ports -> occurrences p ports = 0.
Proof.
  unfold occurrences. induction ports as [|q ports IH]; intros Hout; [done|].
  apply not_elem_of_cons in Hout as [Hne Hout].
  rewrite filter_cons, decide_False by congruence. by apply IH.
Qed.

Lemma occurrences_app (p : Port) (a b : list Port) :
  occurrences p (a ++ b) = occurrences p a + occurrences p b.
Proof. unfold occurrences. by rewrite filter_app, length_app. Qed.

(** X5: [attachPort] alone gets buffered tasks delivered.  Outside a
    service worker and when no [postMessage] throws, with no flush under
    way, attaching a port that is not yet a send port appends its Ping to
    the queue kept for that port and arms the flush.  The flush then posts
    to that port the queues kept for it or without destination, and no
    other: unwrapped, the posts are the tasks of those queues, queue by
    queue in Map order and in queue order inside each.  The Ping is the
    last task of the port's own queue, so tasks of a destination-less
    queue created later come after it.  Afterwards nothing is pending and
    no flush is under way. *)
Theorem attachPort_delivers_buffered (env : Env) (st : SuperMessagePort) (p : Port) :
  IS_SERVICE_WORKER env = false ->
  (forall q t, post_throws env q t = false) ->
  releasingPending st = false ->
  p ∉ sendPorts st ->
  let st1 := attachPort env p st in
  let st2 := step env st1 EFlush in
  pending st1 = pending_push (KPort p) (PingTask (taskId st) None) (pending st)
  /\ concat (map unwrap (new_posts st1 st2 p))
     = concat (map (fun e => match fst e with
                             | KPort q => if decide (q = p) then snd e else []
                             | KUndefined | KNull => snd e
                             end) (pending st1))
  /\ pending st2 = [] /\ releasingPending st2 = false.
Proof.
  intros Hsw Hno Hr Hout st1 st2.
  assert (Hst1 : pending st1 = pending_push (KPort p) (PingTask (taskId st) None) (pending st)
                 /\ releasingPending st1 = true /\ sendPorts st1 = sendPorts st ++ [p]).
  { unfold st1, attachPort, attachSendPort, attachListenPort, sendPing. simpl.
    rewrite pushTask_arms.
    - by destruct (has_start env p).
    - destruct (has_start env p); simpl; by destruct (listenPorts st).
    - by destruct (has_start env p). }
  destruct Hst1 as (Hp & Hr1 & Hs1). split; [exact Hp|].
  assert (Hocc : occurrences p (sendPorts st1) <= 1).
  { rewrite Hs1, occurrences_app, occurrences_not_elem by done.
    unfold occurrences. rewrite filter_cons, filter_nil, decide_True by done. simpl. lia. }
  unfold st2. simpl. rewrite Hr1.
  split; [|done].
  rewrite (releasePending_resume_to_port env st1 p Hsw Hno Hocc). f_equal. apply map_ext. intros [k ts]. simpl.
  unfold reaches. rewrite Hs1. destruct k as [| |q].
  - rewrite bool_decide_eq_true_2; [done|]. apply elem_of_app. right. by left.
  - rewrite bool_decide_eq_true_2; [done|]. apply elem_of_app. right. by left.
  - by case_bool_decide; [rewrite decide_True|rewrite decide_False].
Qed.

(** ** The fan-out *)

Lemma fanout_tasks_length (type : string) (payload : value) (p : Port) (n : nat)
    (targets : list Port) :
  length (fanout_tasks type payload p n targets) = occurrences p targets.
Proof.
  unfold occurrences. revert n. induction targets as [|q rest IH]; intros n; simpl; [done|].
  rewrite filter_cons, length_app, IH. by destruct (decide (q = p)).
Qed.

Lemma fanout_fold (type : string) (payload : value) (targets : list Port)
    (st : SuperMessagePort) :
  let st' := fold_left (fun s target => invokeVoid type payload (Some target) None s)
               targets st in
  taskId st' = taskId st + length targets
  /\ awaiting st' = awaiting st /\ promises st' = promises st
  /\ sendPorts st' = sendPorts st
  /\ pending_get KUndefined (pending st') = pending_get KUndefined (pending st)
  /\ pending_get KNull (pending st') = pending_get KNull (pending st)
  /\ forall p, pending_get (KPort p) (pending st')
               = pending_get (KPort p) (pending st)
                 ++ fanout_tasks type payload p (taskId st) targets.
Proof.
  revert st. induction targets as [|q rest IH]; intros st; simpl.
  - split_and!; try done; try lia. intros p. by rewrite app_nil_r.
  - destruct (IH (invokeVoid type payload (Some q) None st))
      as (H1 & H2 & H3 & H4 & H5 & H6 & H7).
    unfold invokeVoid in *. simpl in *. autorewrite with push in *. simpl in *.
    rewrite H1, H2, H3, H4, H5, H6. rewrite !pending_get_push.
    rewrite !decide_False by done. rewrite !app_nil_r.
    split_and!; try done; try lia.
    intros p. rewrite H7, pending_get_push. rewrite <- app_assoc. f_equal. f_equal.
    destruct (decide (KPort p = KPort q)) as [Heq|Hne].
    + injection Heq as ->. by rewrite decide_True.
    + rewrite decide_False; [done|]. congruence.
Qed.

(** X6: [invokeExceptSource] queues, for every port, as many void Invokes
    as the port has occurrences in [sendPorts], one less for the source;
    they get consecutive ids from the counter; nothing is queued without
    destination, and no entry is made in [awaiting]. *)
Theorem invokeExceptSource_fanout (type : string) (payload : value) (source : option Port)
    (st : SuperMessagePort) :
  let st' := invokeExceptSource type payload source st in
  let targets := fanout_targets source st in
  taskId st' = taskId st + length targets
  /\ awaiting st' = awaiting st /\ promises st' = promises st
  /\ pending_get KUndefined (pending st') = pending_get KUndefined (pending st)
  /\ pending_get KNull (pending st') = pending_get KNull (pending st)
  /\ forall p,
       pending_get (KPort p) (pending st')
         = pending_get (KPort p) (pending st)
           ++ fanout_tasks type payload p (taskId st) targets
       /\ length (fanout_tasks type payload p (taskId st) targets)
          = match source with
            | Some s => if decide (p = s) then pred (occurrences s (sendPorts st))
                        else occurrences p (sendPorts st)
            | None => occurrences p (sendPorts st)
            end.
Proof.
  intros st' targets.
  destruct (fanout_fold type payload targets st) as (H1 & H2 & H3 & _ & H5 & H6 & H7).
  split_and!; try done. intros p. split; [apply H7|].
  rewrite fanout_tasks_length. unfold targets, fanout_targets.
  destruct source as [s|]; [|done]. apply occurrences_indexOfAndSplice.
Qed.

(** ** Calls and their replies *)

(** The caller's side of a call without ack: what a Result for the call
    does to the promise [invoke] returned. *)
Lemma invoke_then_result (type : string) (payload : value) (withAck : option bool)
    (port : option Port) (transfer : option (list Transferable)) (caller : SuperMessagePort)
    (id : nat) (result error : option value) (tr : option (list Transferable)) :
  let '(p, caller1) := invoke type payload withAck port transfer caller in
  let reply := ResultTask id (taskId caller) result error tr in
  let caller2 := processResultTask reply caller1 in
  promises caller2 !! p
    = Some (if truthy (field error) then Rejected (field error) else Fulfilled (field result))
  /\ awaiting caller2 !! taskId caller = None
  /\ processResultTask reply caller2 = caller2.
Proof.
  pose proof (invoke_effect type payload withAck port transfer caller) as Hinv.
  destruct (invoke type payload withAck port transfer caller) as [p caller1].
  destruct Hinv as (Hp & Hpr & Haw & _ & _).
  assert (Hentry : awaiting caller1 !! taskId caller
                   = Some {| resolve := p; reject := p; taskType := type |})
    by (by rewrite Haw, lookup_insert_eq).
  assert (Hpend : promises caller1 !! p = Some Pending)
    by (by rewrite Hpr, lookup_app_r, Hp, Nat.sub_diag by lia).
  assert (Hgone : awaiting (processResultTask (ResultTask id (taskId caller) result error tr)
                              caller1) !! taskId caller = None)
    by apply processResultTask_removes_entry.
  split_and!.
  - destruct (truthy (field error)) eqn:He.
    + by apply (processResultTask_rejects id _ result error tr caller1 _ Hentry Hpend).
    + by apply (processResultTask_fulfils id _ result error tr caller1 _ Hentry Hpend).
  - exact Hgone.
  - simpl in *. by rewrite Hgone.
Qed.

Lemma set_suspended_same (st : SuperMessagePort) : set_suspended (suspended st) st = st.
Proof. by destruct st. Qed.

Lemma resume_all_suspended (outcome : Settled) (frames : list Suspended)
    (st : SuperMessagePort) :
  suspended (fold_left (fun s f => processInvokeTask_resume f outcome s) frames st)
    = suspended st.
Proof.
  revert st. induction frames as [|f frames IH]; intros st; simpl; [done|].
  rewrite IH. unfold processInvokeTask_resume. destruct outcome; by autorewrite with push.
Qed.

Lemma filter_waiting_others (h : nat) (frames : list Suspended) :
  filter (fun f => s_promise f = h) (filter (fun f => s_promise f <> h) frames) = []
  /\ filter (fun f => s_promise f <> h) (filter (fun f => s_promise f <> h) frames)
     = filter (fun f => s_promise f <> h) frames.
Proof.
  induction frames as [|f frames [IH1 IH2]]; [done|].
  rewrite !filter_cons. destruct (decide (s_promise f <> h)) as [Hne|Heq].
  - rewrite !filter_cons. rewrite decide_False by done. rewrite decide_True by done.
    by rewrite IH1, IH2.
  - done.
Qed.

(** X14: a listener's Promise that has settled cannot make the receiver
    send again: settling it a second time changes nothing. *)
Theorem handlerSettled_once (h : nat) (first second : Settled) (st : SuperMessagePort) :
  handlerSettled h second (handlerSettled h first st) = handlerSettled h first st.
Proof.
  unfold handlerSettled at 1.
  assert (Hs : suspended (handlerSettled h first st)
               = filter (fun f => s_promise f <> h) (suspended st)).
  { unfold handlerSettled. by rewrite resume_all_suspended. }
  rewrite Hs. destruct (filter_waiting_others h (suspended st)) as [-> ->].
  simpl. rewrite <- Hs. apply set_suspended_same.
Qed.

Section Calls.

Context (envR : Env) (caller receiver : SuperMessagePort).
Context (type : string) (payload : value) (withAck : option bool) (port : option Port).
Context (transfer : option (list Transferable)) (evSource : option Port) (target : Port).

Let task : Task := InvokeTask (taskId caller) type payload withAck None transfer.
Let event : MessageEvent := {| data := task; source := evSource; currentTarget := target |}.
Let src : Port := default target evSource.

(** X9: a call without ack to a listener that returns [v]: the receiver
    queues one Result with [result: v] for the source, the caller's
    promise is fulfilled with exactly [v], for every [v], the entry is
    removed, and the same Result once more changes nothing. *)
Theorem call_returns_value (listener : ListenerCallback) (rest : list ListenerCallback)
    (v : value) :
  flag withAck = false ->
  listeners envR type = listener :: rest ->
  listener payload src event = Returns v ->
  let reply := ResultTask (taskId receiver) (taskId caller) (Some v) None None in
  let '(p, caller1) := invoke type payload withAck port transfer caller in
  let caller2 := processResultTask reply caller1 in
  onMessage envR event receiver
    = pushTask reply (KPort src) (set_taskId (S (taskId receiver)) receiver)
  /\ promises caller2 !! p = Some (Fulfilled v)
  /\ awaiting caller2 !! taskId caller = None
  /\ processResultTask reply caller2 = caller2.
Proof.
  intros Hack Hl Hv reply.
  pose proof (invoke_then_result type payload withAck port transfer caller
                (taskId receiver) (Some v) None None) as H.
  destruct (invoke type payload withAck port transfer caller) as [p caller1].
  split; [|exact H].
  unfold onMessage. simpl. rewrite Hack, Hl. fold task. fold event. fold src.
  by rewrite Hv.
Qed.

(** X10: a call without ack to an operation nobody listens to: the
    receiver queues a Result with the error "no listener" and the
    caller's promise is rejected with it. *)
Theorem call_without_listener :
  flag withAck = false ->
  listeners envR type = [] ->
  let error := VError "no listener" in
  let reply := ResultTask (taskId receiver) (taskId caller) None (Some error) None in
  let '(p, caller1) := invoke type payload withAck port transfer caller in
  let caller2 := processResultTask reply caller1 in
  onMessage envR event receiver
    = pushTask reply (KPort src) (set_taskId (S (taskId receiver)) receiver)
  /\ promises caller2 !! p = Some (Rejected error)
  /\ awaiting caller2 !! taskId caller = None.
Proof.
  intros Hack Hl error reply.
  pose proof (invoke_then_result type payload withAck port transfer caller
                (taskId receiver) None (Some error) None) as H.
  destruct (invoke type payload withAck port transfer caller) as [p caller1].
  destruct H as (H1 & H2 & _). split; [|split; [exact H1|exact H2]].
  unfold onMessage. simpl. by rewrite Hack, Hl.
Qed.

(** X11: a call without ack to a listener that throws a truthy [e]: the
    receiver queues a Result with [error: e] and the caller's promise is
    rejected with exactly [e]. *)
Theorem call_throws (listener : ListenerCallback) (rest : list ListenerCallback)
    (e : value) :
  flag withAck = false ->
  listeners envR type = listener :: rest ->
  listener payload src event = Throws e ->
  truthy e = true ->
  let reply := ResultTask (taskId receiver) (taskId caller) None (Some e) None in
  let '(p, caller1) := invoke type payload withAck port transfer caller in
  let caller2 := processResultTask reply caller1 in
  onMessage envR event receiver
    = pushTask reply (KPort src) (set_taskId (S (taskId receiver)) receiver)
  /\ promises caller2 !! p = Some (Rejected e)
  /\ awaiting caller2 !! taskId caller = None.
Proof.
  intros Hack Hl Hv He reply.
  pose proof (invoke_then_result type payload withAck port transfer caller
                (taskId receiver) None (Some e) None) as H.
  destruct (invoke type payload withAck port transfer caller) as [p caller1].
  destruct H as (H1 & H2 & _).
  change (field (Some e)) with e in H1. rewrite He in H1.
  split; [|split; [exact H1|exact H2]].
  unfold onMessage. simpl. rewrite Hack, Hl. fold task. fold event. fold src.
  rewrite Hv. unfold invoke_caught. done.
Qed.

(** X12: a call without ack to a listener that returns a Promise nothing
    else waits for: the receiver queues nothing and keeps one frame; when
    the Promise settles, exactly one Result is queued for the source, with
    the value or the error; the caller's promise is fulfilled with the
    value, or rejected with a truthy error. *)
Theorem call_deferred (listener : ListenerCallback) (rest : list ListenerCallback)
    (h : nat) :
  flag withAck = false ->
  listeners envR type = listener :: rest ->
  listener payload src event = ReturnsPromise h ->
  Forall (fun f => s_promise f <> h) (suspended receiver) ->
  let frame := {| s_promise := h; s_resultId := taskId receiver; s_taskId := taskId caller;
                  s_source := src |} in
  let reply := fun outcome =>
    match outcome with
    | Fulfils v => ResultTask (taskId receiver) (taskId caller) (Some v) None None
    | Rejects e => ResultTask (taskId receiver) (taskId caller) None (Some e) None
    end in
  let receiver1 := onMessage envR event receiver in
  let '(p, caller1) := invoke type payload withAck port transfer caller in
  receiver1 = set_suspended (suspended receiver ++ [frame])
                (set_taskId (S (taskId receiver)) receiver)
  /\ (forall outcome,
        handlerSettled h outcome receiver1
          = pushTask (reply outcome) (KPort src) (set_taskId (S (taskId receiver)) receiver))
  /\ (forall v, promises (processResultTask (reply (Fulfils v)) caller1) !! p
                = Some (Fulfilled v))
  /\ (forall e, truthy e = true ->
                promises (processResultTask (reply (Rejects e)) caller1) !! p
                = Some (Rejected e)).
Proof.
  intros Hack Hl Hh Hfree frame reply receiver1.
  assert (Hcaller : forall r e,
            let '(p, caller1) := invoke type payload withAck port transfer caller in
            promises (processResultTask (ResultTask (taskId receiver) (taskId caller) r e None)
                        caller1) !! p
            = Some (if truthy (field e) then Rejected (field e) else Fulfilled (field r))).
  { intros r e.
    pose proof (invoke_then_result type payload withAck port transfer caller
                  (taskId receiver) r e None) as H.
    destruct (invoke type payload withAck port transfer caller) as [p caller1].
    by destruct H as (H & _). }
  assert (Hrecv : receiver1 = set_suspended (suspended receiver ++ [frame])
                                (set_taskId (S (taskId receiver)) receiver)).
  { unfold receiver1, onMessage. simpl. rewrite Hack, Hl. fold task. fold event. fold src.
    by rewrite Hh. }
  destruct (invoke type payload withAck port transfer caller) as [p caller1].
  split; [exact Hrecv|]. split; [|split].
  - intros outcome. rewrite Hrecv. unfold handlerSettled. simpl.
    rewrite !filter_app, !filter_cons, !filter_nil. simpl.
    rewrite decide_True by done. rewrite decide_False by (intros H; by apply H).
    assert (Hw : filter (fun f => s_promise f = h) (suspended receiver) = []).
    { clear -Hfree. induction Hfree as [|f l Hf _ IH]; [done|].
      by rewrite filter_cons, decide_False. }
    assert (Ho : filter (fun f => s_promise f <> h) (suspended receiver) = suspended receiver).
    { clear -Hfree. induction Hfree as [|f l Hf _ IH]; [done|].
      by rewrite filter_cons, decide_True, IH. }
    rewrite Hw, Ho, app_nil_r. simpl.
    unfold processInvokeTask_resume, frame, reply. simpl.
    assert (Heta : set_suspended (suspended receiver)
                     (set_suspended (suspended receiver ++ [frame])
                        (set_taskId (S (taskId receiver)) receiver))
                   = set_taskId (S (taskId receiver)) receiver) by (by destruct receiver).
    unfold frame in Heta. rewrite Heta. by destruct outcome.
  - intros v. apply (Hcaller (Some v) None).
  - intros e He. specialize (Hcaller None (Some e)).
    change (field (Some e)) with e in Hcaller. by rewrite He in Hcaller.
Qed.

(** X13: a call with ack whose listener throws [e] at once, or is missing:
    the receiver answers with one Ack, [cached: true] and [error: e]; the
    caller's promise is not rejected but fulfilled with
    [{cached: true, result: q}], where [q] is rejected with [e], for every
    [e], falsy or not; the entry stays in [awaiting]. *)
Theorem call_with_ack_throws (e : value) :
  flag withAck = true ->
  (listeners envR type = [] /\ e = VError "no listener"
   \/ exists listener rest, listeners envR type = listener :: rest
                            /\ listener payload src event = Throws e) ->
  let ack := AckTask (S (taskId receiver)) (taskId caller) true None (Some e) None in
  let '(p, caller1) := invoke type payload withAck port transfer caller in
  let caller2 := processAckTask ack caller1 in
  onMessage envR event receiver
    = pushTask ack (KPort src) (set_taskId (S (S (taskId receiver))) receiver)
  /\ promises caller2 !! p = Some (Fulfilled (VAckedResult true (VPromise (S p))))
  /\ promises caller2 !! S p = Some (Rejected e)
  /\ is_Some (awaiting caller2 !! taskId caller).
Proof.
  intros Hack Hthrow ack.
  pose proof (invoke_effect type payload withAck port transfer caller) as Hinv.
  destruct (invoke type payload withAck port transfer caller) as [p caller1].
  destruct Hinv as (Hp & Hpr & Haw & _ & _).
  split.
  { unfold onMessage. simpl. rewrite Hack.
    destruct Hthrow as [[Hl ->]|(listener & rest & Hl & Hv)]; rewrite Hl; [done|].
    fold task. fold event. fold src. by rewrite Hv. }
  assert (Hentry : awaiting caller1 !! taskId caller
                   = Some {| resolve := p; reject := p; taskType := type |})
    by (by rewrite Haw, lookup_insert_eq).
  assert (Hlen : length (promises caller1) = S p)
    by (rewrite Hpr, length_app, <- Hp; simpl; lia).
  unfold ack. simpl. rewrite Hentry. simpl. rewrite Hlen. split_and!.
  - rewrite settle_pending; [done|]. rewrite lookup_app_l by lia.
    by rewrite Hpr, lookup_app_r, Hp, Nat.sub_diag by lia.
  - rewrite settle_other by lia. by rewrite lookup_app_r, Hlen, Nat.sub_diag by lia.
  - by rewrite Hentry.
Qed.

End Calls.

(** ** Late replies, Pongs and the ping loop *)

(** X15: once a Result for a call has been processed, any later Result or
    Ack for the same call changes nothing. *)
Theorem reply_after_result_ignored (env : Env) (id i : nat) (result error : option value)
    (tr : option (list Transferable)) (task : Task) (evSource : option Port) (target : Port)
    (st : SuperMessagePort) :
  reply_to task = Some i ->
  let st' := processResultTask (ResultTask id i result error tr) st in
  onMessage env {| data := task; source := evSource; currentTarget := target |} st' = st'.
Proof.
  intros Hreply st'.
  pose proof (processResultTask_removes_entry id i result error tr st) as Hgone.
  fold st' in Hgone.
  destruct task; simpl in Hreply; try discriminate; injection Hreply as ->;
    unfold onMessage; simpl; by rewrite Hgone.
Qed.

Lemma processPongTask_effect (env : Env) (st : SuperMessagePort) (port : Port) (k : nat)
    (loop : bool) (task : Task) (event : MessageEvent) :
  pingResolves st !! port = Some k ->
  pings st !! k = Some {| ping_port := port; ping_loop := loop; ping_status := PingPending |} ->
  let st' := processPongTask task port event st in
  pingResolves st' !! port = None
  /\ pings st' !! k
     = Some {| ping_port := port; ping_loop := loop; ping_status := PingResolved |}
  /\ listenPorts st' = listenPorts st /\ sendPorts st' = sendPorts st
  /\ pending st' = pending st /\ closed st' = closed st
  /\ pingTimers st' = pingTimers st ++ (if loop then [port] else [])
  /\ pingDeadline env k st' = st'
  /\ processPongTask task port event st' = st'.
Proof.
  intros Hres Hping st'.
  assert (Hlt : k < length (pings st)) by (by eapply lookup_lt_Some).
  assert (Hst' : st' = sendPing_resolved port loop
                         (set_pings (<[k := {| ping_port := port; ping_loop := loop;
                                               ping_status := PingResolved |}]> (pings st))
                            (set_pingResolves (delete port (pingResolves st)) st))).
  { unfold st', processPongTask. rewrite Hres. unfold pingResolve. simpl. by rewrite Hping. }
  assert (Hr : pingResolves st' !! port = None).
  { rewrite Hst'. unfold sendPing_resolved, sendPingWithTimeout.
    destruct loop; simpl; by rewrite lookup_delete_eq. }
  assert (Hk : pings st' !! k
               = Some {| ping_port := port; ping_loop := loop; ping_status := PingResolved |}).
  { rewrite Hst'. unfold sendPing_resolved, sendPingWithTimeout.
    destruct loop; simpl; by rewrite list_lookup_insert_eq. }
  split; [exact Hr|]. split; [exact Hk|].
  split_and!; try (rewrite Hst'; unfold sendPing_resolved, sendPingWithTimeout;
                   destruct loop; simpl; by rewrite ?app_nil_r).
  - unfold pingDeadline. by rewrite Hk.
  - unfold processPongTask. by rewrite Hr.
Qed.

Lemma processPongTask_keeps (task : Task) (port : Port) (event : MessageEvent)
    (st : SuperMessagePort) :
  let st' := processPongTask task port event st in
  taskId st' = taskId st /\ length (pings st') = length (pings st)
  /\ pending st' = pending st /\ releasingPending st' = releasingPending st
  /\ listenPorts st' = listenPorts st.
Proof.
  unfold processPongTask. destruct (pingResolves st !! port) as [k|]; [|done].
  unfold pingResolve. simpl.
  destruct (pings st !! k) as [[q loop [| |]]|]; try done.
  unfold sendPing_resolved, sendPingWithTimeout. destruct loop; simpl;
    by rewrite length_insert.
Qed.

(** X16: a Pong from a port with a stored resolver of a pending ping
    resolves the ping and removes the resolver; the ports stay attached,
    nothing is queued or closed, the interval timer is armed if the ping
    loops; the deadline of that ping then does nothing, and neither does
    a second Pong. *)
Theorem pong_cancels_deadline (env : Env) (st : SuperMessagePort) (port : Port) (k : nat)
    (loop : bool) (task : Task) (event : MessageEvent) :
  pingResolves st !! port = Some k ->
  pings st !! k = Some {| ping_port := port; ping_loop := loop; ping_status := PingPending |} ->
  let st' := processPongTask task port event st in
  pingResolves st' !! port = None
  /\ pings st' !! k
     = Some {| ping_port := port; ping_loop := loop; ping_status := PingResolved |}
  /\ listenPorts st' = listenPorts st /\ sendPorts st' = sendPorts st
  /\ pending st' = pending st /\ closed st' = closed st
  /\ pingTimers st' = pingTimers st ++ (if loop then [port] else [])
  /\ pingDeadline env k st' = st'
  /\ processPongTask task port event st' = st'.
Proof. apply processPongTask_effect. Qed.

Lemma attachSendPort_effect (env : Env) (port : Port) (st : SuperMessagePort) :
  let st1 := attachSendPort env port st in
  sendPorts st1 = sendPorts st ++ [port]
  /\ listenPorts st1 = listenPorts st
  /\ pings st1 = pings st ++ [{| ping_port := port; ping_loop := IS_WORKER env;
                                 ping_status := PingPending |}]
  /\ pingResolves st1 = <[port := length (pings st)]> (pingResolves st)
  /\ pingTimers st1 = pingTimers st
  /\ taskId st1 = S (taskId st)
  /\ pending st1 = pending_push (KPort port) (PingTask (taskId st) None) (pending st)
  /\ started st1 = started st ++ (if has_start env port then [port] else []).
Proof.
  unfold attachSendPort, sendPing. simpl. autorewrite with push.
  destruct (has_start env port); simpl; by rewrite ?app_nil_r.
Qed.

(** X17: after [attachSendPort] and the Pong, the deadline is cancelled.
    In a worker the interval timer is armed and, when it fires, a second
    Ping is queued for the port after the first and its resolver stored;
    outside a worker no timer is armed and the timer event does nothing. *)
Theorem worker_ping_loop (env : Env) (st : SuperMessagePort) (port : Port) (id : nat)
    (tr : option (list Transferable)) (evSource : option Port) (target : Port) :
  default target evSource = port ->
  let st1 := attachSendPort env port st in
  let st2 := onMessage env {| data := PongTask id tr; source := evSource;
                              currentTarget := target |} st1 in
  let st3 := step env st2 (EPingInterval port) in
  pingTimers st2 = pingTimers st ++ (if IS_WORKER env then [port] else [])
  /\ sendPorts st2 = sendPorts st ++ [port]
  /\ step env st2 (EPingDeadline (length (pings st))) = st2
  /\ (IS_WORKER env = true ->
      pending_get (KPort port) (pending st3)
        = pending_get (KPort port) (pending st)
          ++ [PingTask (taskId st) None; PingTask (S (taskId st)) None]
      /\ pingResolves st3 !! port = Some (S (length (pings st))))
  /\ (IS_WORKER env = false -> port ∉ pingTimers st -> st3 = st2).
Proof.
  intros Hsrc st1 st2 st3.
  destruct (attachSendPort_effect env port st) as (Hs & Hl & Hpi & Hr & Ht & Hid & Hpe & _).
  fold st1 in Hs, Hl, Hpi, Hr, Ht, Hid, Hpe.
  assert (Hres : pingResolves st1 !! port = Some (length (pings st)))
    by (by rewrite Hr, lookup_insert_eq).
  assert (Hping : pings st1 !! length (pings st)
                  = Some {| ping_port := port; ping_loop := IS_WORKER env;
                            ping_status := PingPending |})
    by (by rewrite Hpi, lookup_app_r, Nat.sub_diag by lia).
  assert (Hst2 : st2 = processPongTask (PongTask id tr) port
                         {| data := PongTask id tr; source := evSource;
                            currentTarget := target |} st1).
  { unfold st2, onMessage. simpl. by rewrite Hsrc. }
  destruct (processPongTask_effect env st1 port (length (pings st)) (IS_WORKER env)
              (PongTask id tr) {| data := PongTask id tr; source := evSource;
                                  currentTarget := target |} Hres Hping)
    as (H1 & H2 & H3 & H4 & H5 & H6 & H7 & H8 & H9).
  rewrite <- Hst2 in *.
  destruct (processPongTask_keeps (PongTask id tr) port
              {| data := PongTask id tr; source := evSource; currentTarget := target |} st1)
    as (Hk1 & Hk2 & _).
  rewrite <- Hst2 in *.
  split; [by rewrite H7, Ht|]. split; [by rewrite H4, Hs|]. split; [exact H8|].
  split.
  - intros Hw. rewrite Hw in H7. unfold st3. simpl. unfold pingInterval.
    rewrite decide_True by (rewrite H7, Ht; apply elem_of_app; right; by left).
    simpl. rewrite decide_True by (rewrite H4, Hs; apply elem_of_app; right; by left).
    unfold sendPing. simpl. autorewrite with push. simpl.
    rewrite lookup_insert_eq, pending_get_push, decide_True by done.
    rewrite H5, Hpe, pending_get_push, decide_True by done.
    rewrite Hk1, Hk2, Hid, Hpi, length_app. simpl.
    split; [by rewrite <- app_assoc|]. f_equal. lia.
  - intros Hw Hout. rewrite Hw in H7. rewrite app_nil_r in H7.
    unfold st3. simpl. unfold pingInterval.
    rewrite decide_False; [done|]. by rewrite H7, Ht.
Qed.

(** ** What every reachable state satisfies *)

Lemma Keeps_refl (s : SuperMessagePort) : Keeps s s.
Proof. unfold Keeps, Mono. split_and!; auto. Qed.

Lemma Keeps_trans (s1 s2 s3 : SuperMessagePort) : Keeps s1 s2 -> Keeps s2 s3 -> Keeps s1 s3.
Proof.
  intros [(H1 & H2 & H3) Hi] [(H1' & H2' & H3') Hi']. unfold Keeps, Mono.
  split_and!; try lia; auto.
Qed.

Lemma Forall_pending_push (P : Task -> Prop) (k : PortKey) (t : Task)
    (m : list (PortKey * list Task)) :
  Forall P (concat (map snd m)) -> P t -> Forall P (concat (map snd (pending_push k t m))).
Proof.
  intros Hm Ht. induction m as [|[k0 ts] m IH]; simpl in *.
  - by repeat constructor.
  - apply Forall_app in Hm as [H1 H2]. destruct (decide (k0 = k)); simpl.
    + rewrite !Forall_app. split_and!; try done. by repeat constructor.
    + rewrite Forall_app. split; [done|]. by apply IH.
Qed.

Lemma Inv_weaken (st : SuperMessagePort) (n : nat) :
  taskId st <= n -> Inv st -> Inv (set_taskId n st).
Proof.
  intros Hn (Ha & Hq & Hs & Hp). unfold Inv. simpl. split_and!.
  - intros i d Hid. destruct (Ha i d Hid) as (? & ? & ?). split_and!; try done; lia.
  - eapply Forall_impl; [exact Hq|]. simpl. intros; lia.
  - eapply Forall_impl; [exact Hs|]. simpl. intros; lia.
  - exact Hp.
Qed.

Lemma Keeps_bump (st : SuperMessagePort) (n : nat) :
  taskId st <= n -> Keeps st (set_taskId n st).
Proof.
  intros Hn. split; [|by apply Inv_weaken]. unfold Mono. simpl. split_and!; auto.
Qed.

Lemma Keeps_pushTask (t : Task) (k : PortKey) (st : SuperMessagePort) :
  (Inv st -> task_id t < taskId st) -> Keeps st (pushTask t k st).
Proof.
  intros Hid. split.
  - unfold Mono. autorewrite with push. split_and!; auto.
  - intros HI. destruct (HI) as (Ha & Hq & Hs & Hp). unfold Inv. autorewrite with push.
    split_and!; try done. apply Forall_pending_push; auto.
Qed.

Lemma settle_lookup (p q : nat) (x : PromiseState) (heap : list PromiseState) (y : PromiseState) :
  heap !! q = Some y -> y <> Pending -> settle p x heap !! q = Some y.
Proof.
  intros Hq Hy. destruct (decide (p = q)) as [->|Hne].
  - by rewrite (settle_settled q y x heap Hq Hy).
  - by rewrite settle_other.
Qed.

Lemma Keeps_settle (p : nat) (x : PromiseState) (st : SuperMessagePort) :
  Keeps st (set_promises (settle p x (promises st)) st).
Proof.
  split.
  - unfold Mono. simpl. rewrite settle_length. split_and!; auto.
    intros q y Hq Hy. by apply settle_lookup.
  - intros (Ha & Hq & Hs & Hp). unfold Inv. simpl. rewrite settle_length. done.
Qed.

Lemma Keeps_alloc (x : PromiseState) (st : SuperMessagePort) :
  Keeps st (set_promises (promises st ++ [x]) st).
Proof.
  split.
  - unfold Mono. simpl. rewrite length_app. split_and!; [lia|lia|].
    intros q y Hq Hy. rewrite lookup_app_l; [done|]. by eapply lookup_lt_Some.
  - intros (Ha & Hq & Hs & Hp). unfold Inv. simpl. rewrite length_app. split_and!; try done.
    intros i d Hid. destruct (Ha i d Hid) as (? & ? & ?). split_and!; try done; lia.
Qed.

Lemma Keeps_delete (i : nat) (st : SuperMessagePort) :
  Keeps st (set_awaiting (delete i (awaiting st)) st).
Proof.
  split; [unfold Mono; simpl; split_and!; auto|].
  intros (Ha & Hq & Hs & Hp). unfold Inv. simpl. split_and!; try done.
  intros j d Hj. apply lookup_delete_Some in Hj as [_ Hj]. by apply Ha.
Qed.

Lemma Keeps_insert (i q : nat) (type : string) (st : SuperMessagePort) :
  (Inv st -> i < taskId st /\ q < length (promises st)) ->
  Keeps st (set_awaiting (<[i := {| resolve := q; reject := q; taskType := type |}]>
                            (awaiting st)) st).
Proof.
  intros Hside. split; [unfold Mono; simpl; split_and!; auto|].
  intros HI. destruct (Hside HI) as [Hi Hq']. destruct HI as (Ha & Hq & Hs & Hp).
  unfold Inv. simpl. split_and!; try done.
  intros j d Hj. destruct (decide (i = j)) as [->|Hne].
  - rewrite lookup_insert_eq in Hj. injection Hj as <-. simpl. done.
  - rewrite lookup_insert_ne in Hj by done. by apply Ha.
Qed.

Lemma Keeps_suspend (f : Suspended) (st : SuperMessagePort) :
  (Inv st -> s_resultId f < taskId st) ->
  Keeps st (set_suspended (suspended st ++ [f]) st).
Proof.
  intros Hside. split; [unfold Mono; simpl; split_and!; auto|].
  intros HI. specialize (Hside HI). destruct HI as (Ha & Hq & Hs & Hp).
  unfold Inv. simpl. split_and!; try done. apply Forall_app. split; [done|].
  by repeat constructor.
Qed.

Lemma Keeps_fold {A : Type} (f : SuperMessagePort -> A -> SuperMessagePort) (l : list A)
    (st : SuperMessagePort) :
  (forall s x, Keeps s (f s x)) -> Keeps st (fold_left f l st).
Proof.
  intros Hf. revert st. induction l as [|x l IH]; intros st; simpl; [apply Keeps_refl|].
  eapply Keeps_trans; [apply Hf|apply IH].
Qed.

(** Peel the outermost update off the state on the right. *)
Ltac keeps_mid :=
  match goal with
  | |- Keeps ?s (set_awaiting _ ?m) => apply (Keeps_trans s m)
  | |- Keeps ?s (set_promises _ ?m) => apply (Keeps_trans s m)
  | |- Keeps ?s (set_suspended _ ?m) => apply (Keeps_trans s m)
  | |- Keeps ?s (set_taskId _ ?m) => apply (Keeps_trans s m)
  | |- Keeps ?s (pushTask _ _ ?m) => apply (Keeps_trans s m)
  end.

Lemma Keeps_alloc_settle (p : nat) (x y : PromiseState) (st : SuperMessagePort) :
  Keeps st (set_promises (settle p x (promises st ++ [y])) st).
Proof.
  apply (Keeps_trans st (set_promises (promises st ++ [y]) st)); [apply Keeps_alloc|].
  apply (Keeps_settle p x (set_promises (promises st ++ [y]) st)).
Qed.

Ltac keeps_prim :=
  match goal with
  | |- Keeps ?m (set_awaiting (delete ?i _) _) => apply (Keeps_delete i m)
  | |- Keeps ?m (set_awaiting (<[?i := {| resolve := ?q; reject := _; taskType := ?ty |}]> _) _) =>
      apply (Keeps_insert i q ty m)
  | |- Keeps ?m (set_promises (settle ?p ?x (_ ++ [?y])) _) => apply (Keeps_alloc_settle p x y m)
  | |- Keeps ?m (set_promises (settle ?p ?x _) _) => apply (Keeps_settle p x m)
  | |- Keeps ?m (set_promises (_ ++ [?x]) _) => apply (Keeps_alloc x m)
  | |- Keeps ?m (set_taskId ?n _) => apply (Keeps_bump m n)
  | |- Keeps ?m (pushTask ?t ?k _) => apply (Keeps_pushTask t k m)
  | |- Keeps ?m (set_suspended (_ ++ [?f]) _) => apply (Keeps_suspend f m)
  end.

(** Peel updates until the two states agree; side conditions on ids are
    arithmetic. *)
Ltac keeps :=
  repeat first
    [ apply Keeps_refl
    | keeps_mid;
      [|keeps_prim;
        try (simpl; intros; autorewrite with push; simpl; rewrite ?length_app; simpl; lia)] ].

Lemma Keeps_createTask_push (mk : nat -> Task) (k : PortKey) (st : SuperMessagePort) :
  (forall n, task_id (mk n) = n) ->
  Keeps st (pushTask (mk (taskId st)) k (set_taskId (S (taskId st)) st)).
Proof.
  intros Hmk. keeps_mid; [keeps|]. keeps_prim. simpl. intros _. rewrite Hmk. lia.
Qed.

Lemma Keeps_invokeVoid (type : string) (payload : value) (port : option Port)
    (transfer : option (list Transferable)) (st : SuperMessagePort) :
  Keeps st (invokeVoid type payload port transfer st).
Proof.
  unfold invokeVoid. simpl.
  by apply (Keeps_createTask_push
              (fun id => InvokeTask id type payload None (Some true) transfer)).
Qed.

Lemma Keeps_invoke (type : string) (payload : value) (withAck : option bool)
    (port : option Port) (transfer : option (list Transferable)) (st : SuperMessagePort) :
  Keeps st (snd (invoke type payload withAck port transfer st)).
Proof.
  unfold invoke. simpl. keeps.
Qed.

Lemma Keeps_invokeExceptSource (type : string) (payload : value) (source : option Port)
    (st : SuperMessagePort) :
  Keeps st (invokeExceptSource type payload source st).
Proof.
  unfold invokeExceptSource. apply Keeps_fold. intros s x. apply Keeps_invokeVoid.
Qed.

Lemma Keeps_processResultTask (task : Task) (st : SuperMessagePort) :
  Keeps st (processResultTask task st).
Proof.
  destruct task as [ |id i result error tr| | | | ]; simpl; try apply Keeps_refl.
  destruct (awaiting st !! i) as [d|]; [|apply Keeps_refl].
  destruct (truthy (field error)); keeps.
Qed.

Lemma Keeps_processAckTask (task : Task) (st : SuperMessagePort) :
  Keeps st (processAckTask task st).
Proof.
  destruct task as [ | |id i cached result error tr| | | ]; simpl; try apply Keeps_refl.
  destruct (awaiting st !! i) as [d|] eqn:Hd; [|apply Keeps_refl].
  destruct cached.
  - keeps.
  - keeps_mid; [keeps|].
    keeps_prim. simpl. intros (Ha & _). rewrite settle_length, length_app. simpl.
    destruct (Ha i d Hd) as (? & _). simpl in *. lia.
Qed.

Lemma Keeps_processPingTask (task : Task) (source : Port) (event : MessageEvent)
    (st : SuperMessagePort) :
  Keeps st (processPingTask task source event st).
Proof.
  unfold processPingTask. simpl.
  by apply (Keeps_createTask_push (fun id => PongTask id None)).
Qed.

(** Marking ping [k] as settled and dropping the resolver of its port. *)
Lemma Keeps_ping_settled (k : nat) (port : Port) (loop : bool) (status : PingStatus)
    (resolves : gmap nat nat) (st : SuperMessagePort) :
  pings st !! k = Some {| ping_port := port; ping_loop := loop; ping_status := PingPending |} ->
  (forall q j, resolves !! q = Some j -> q <> port /\ pingResolves st !! q = Some j) ->
  Keeps st (set_pingResolves resolves
              (set_pings (<[k := {| ping_port := port; ping_loop := loop;
                                    ping_status := status |}]> (pings st)) st)).
Proof.
  intros Hk Hres. split; [unfold Mono; simpl; split_and!; auto|].
  intros (Ha & Hq & Hs & Hp). unfold Inv. simpl. split_and!; try done.
  intros q j Hj. destruct (Hres q j Hj) as [Hne Hold].
  destruct (Hp q j Hold) as [l Hl]. exists l.
  rewrite list_lookup_insert_ne; [done|]. intros ->. rewrite Hk in Hl. congruence.
Qed.

Lemma Keeps_plain (s s' : SuperMessagePort) :
  taskId s' = taskId s -> promises s' = promises s -> awaiting s' = awaiting s ->
  pending s' = pending s -> suspended s' = suspended s ->
  pings s' = pings s -> pingResolves s' = pingResolves s ->
  Keeps s s'.
Proof.
  intros H1 H2 H3 H4 H5 H6 H7. unfold Keeps, Mono, Inv.
  rewrite H1, H2, H3, H4, H5, H6, H7. split_and!; auto.
Qed.

Lemma Keeps_pingResolve (k : nat) (source : Port) (st : SuperMessagePort) :
  Keeps st (pingResolve k (set_pingResolves (delete source (pingResolves st)) st)).
Proof.
  assert (Hdrop : Keeps st (set_pingResolves (delete source (pingResolves st)) st)).
  { split; [unfold Mono; simpl; split_and!; auto|].
    intros (Ha & Hq & Hs & Hp). unfold Inv. simpl. split_and!; try done.
    intros q j Hj. apply lookup_delete_Some in Hj as [_ Hj]. by apply Hp. }
  unfold pingResolve. simpl.
  destruct (pings st !! k) as [[port loop [| |]]|] eqn:Hk; try exact Hdrop.
  unfold sendPing_resolved, sendPingWithTimeout.
  assert (H : Keeps st (set_pingResolves (delete port (delete source (pingResolves st)))
                          (set_pings (<[k := {| ping_port := port; ping_loop := loop;
                                                ping_status := PingResolved |}]> (pings st))
                             st))).
  { apply Keeps_ping_settled; [done|]. intros q j Hj.
    apply lookup_delete_Some in Hj as [Hne Hj].
    apply lookup_delete_Some in Hj as [_ Hj]. split; [congruence|done]. }
  by destruct loop.
Qed.

Lemma Keeps_processPongTask (task : Task) (source : Port) (event : MessageEvent)
    (st : SuperMessagePort) :
  Keeps st (processPongTask task source event st).
Proof.
  unfold processPongTask. destruct (pingResolves st !! source); [|apply Keeps_refl].
  apply Keeps_pingResolve.
Qed.

Lemma Keeps_pingDeadline (env : Env) (k : nat) (st : SuperMessagePort) :
  Keeps st (pingDeadline env k st).
Proof.
  unfold pingDeadline.
  destruct (pings st !! k) as [[port loop [| |]]|] eqn:Hk; try apply Keeps_refl.
  unfold sendPing_rejected. simpl.
  assert (H : Keeps st (set_pingResolves (delete port (pingResolves st))
                          (set_pings (<[k := {| ping_port := port; ping_loop := loop;
                                                ping_status := PingRejected |}]> (pings st))
                             st))).
  { apply Keeps_ping_settled; [done|]. intros q j Hj.
    apply lookup_delete_Some in Hj as [Hne Hj]. split; [congruence|done]. }
  by destruct (has_close env port).
Qed.

Lemma Keeps_sendPing (port : Port) (loop : bool) (st : SuperMessagePort) :
  Keeps st (sendPing port loop st).
Proof.
  unfold sendPing. simpl.
  assert (Hnew : Keeps st (set_pingResolves (<[port := length (pings st)]> (pingResolves st))
                             (set_pings (pings st ++ [{| ping_port := port; ping_loop := loop;
                                                         ping_status := PingPending |}]) st))).
  { split; [unfold Mono; simpl; split_and!; auto|].
    intros (Ha & Hq & Hs & Hp). unfold Inv. simpl. split_and!; try done.
    intros q j Hj. destruct (decide (port = q)) as [->|Hne].
    - rewrite lookup_insert_eq in Hj. injection Hj as <-. exists loop.
      by rewrite lookup_app_r, Nat.sub_diag by lia.
    - rewrite lookup_insert_ne in Hj by done. destruct (Hp q j Hj) as [l Hl]. exists l.
      rewrite lookup_app_l; [done|]. by eapply lookup_lt_Some. }
  keeps_mid; [|keeps_prim; simpl; lia].
  keeps_mid; [exact Hnew|keeps_prim; simpl; lia].
Qed.

Lemma Keeps_attachListenPort (port : Port) (st : SuperMessagePort) :
  Keeps st (attachListenPort port st).
Proof. by apply Keeps_plain. Qed.

Lemma Keeps_attachSendPort (env : Env) (port : Port) (st : SuperMessagePort) :
  Keeps st (attachSendPort env port st).
Proof.
  unfold attachSendPort.
  eapply Keeps_trans; [|apply Keeps_sendPing].
  apply Keeps_plain; by destruct (has_start env port).
Qed.

Lemma Keeps_pingInterval (env : Env) (port : Port) (st : SuperMessagePort) :
  Keeps st (pingInterval env port st).
Proof.
  unfold pingInterval. repeat case_match; try apply Keeps_refl.
  - eapply Keeps_trans; [|apply Keeps_sendPing]. by apply Keeps_plain.
  - by apply Keeps_plain.
Qed.

Lemma Keeps_processInvokeTask (env : Env) (task : Task) (source : Port)
    (event : MessageEvent) (st : SuperMessagePort) :
  Keeps st (processInvokeTask env task source event st).
Proof.
  destruct task as [id type payload withAck void tr| | | | | ]; simpl; try apply Keeps_refl.
  unfold invoke_caught.
  destruct (flag void), (flag withAck); simpl;
    (destruct (listeners env type) as [|listener rest];
     [|destruct (listener payload source event)]); keeps.
Qed.

Lemma Keeps_onMessage_task (env : Env) (task : Task) (evSource : option Port)
    (target : Port) :
  forall st, Keeps st (onMessage_task env task evSource target st).
Proof.
  induction task using Task_batch_ind; intros st.
  - apply Keeps_processInvokeTask.
  - apply Keeps_processResultTask.
  - apply Keeps_processAckTask.
  - apply Keeps_processPingTask.
  - apply Keeps_processPongTask.
  - simpl. revert st. induction H as [|t rest Ht _ IH]; intros st; simpl.
    + apply Keeps_refl.
    + eapply Keeps_trans; [apply Ht|apply IH].
Qed.

Lemma Keeps_handlerSettled (h : nat) (outcome : Settled) (st : SuperMessagePort) :
  Keeps st (handlerSettled h outcome st).
Proof.
  unfold handlerSettled.
  set (waiting := filter (fun f => s_promise f = h) (suspended st)).
  set (others := filter (fun f => s_promise f <> h) (suspended st)).
  assert (Hmono : forall frames s, Mono s
            (fold_left (fun s' f => processInvokeTask_resume f outcome s') frames s)).
  { induction frames as [|f frames IH]; intros s; simpl; [apply Keeps_refl|].
    destruct (IH (processInvokeTask_resume f outcome s)) as (H1 & H2 & H3).
    unfold processInvokeTask_resume in *.
    destruct outcome; autorewrite with push in *; unfold Mono; split_and!; auto. }
  split.
  - destruct (Hmono waiting (set_suspended others st)) as (H1 & H2 & H3).
    unfold Mono. split_and!; auto.
  - intros (Ha & Hq & Hs & Hp).
    assert (Hw : Forall (fun f => s_resultId f < taskId st) waiting)
      by (apply Forall_forall; intros f Hf; apply list_elem_of_filter in Hf as [_ Hf];
          by eapply Forall_forall in Hs).
    assert (Ho : Forall (fun f => s_resultId f < taskId st) others)
      by (apply Forall_forall; intros f Hf; apply list_elem_of_filter in Hf as [_ Hf];
          by eapply Forall_forall in Hs).
    assert (Hstart : Inv (set_suspended others st)) by (unfold Inv; simpl; done).
    assert (Hid : taskId (set_suspended others st) = taskId st) by done.
    revert Hstart Hid. generalize (set_suspended others st). clear -Hw.
    induction Hw as [|f frames Hf _ IH]; intros s Hinv Hid; simpl; [done|].
    apply IH.
    + unfold processInvokeTask_resume.
      destruct outcome; apply Keeps_pushTask; simpl; try done; intros; lia.
    + unfold processInvokeTask_resume. destruct outcome; by autorewrite with push.
Qed.

Lemma send_tasks_state (env : Env) (k : PortKey) (out : list Task) (st : SuperMessagePort) :
  fold_left (send_task env k) out st
    = set_posted (posted (fold_left (send_task env k) out st)) st.
Proof.
  revert st. induction out as [|t out IH]; intros st; simpl; [by destruct st|].
  rewrite IH at 1. unfold send_task. by destruct st.
Qed.

(** The flush touches the counter, the transport and nothing else before
    it clears the queues. *)
Lemma release_all_state (env : Env) (m : list (PortKey * list Task)) (st : SuperMessagePort) :
  exists n sends, taskId st <= n
    /\ fold_left (release_port env) m st = set_posted sends (set_taskId n st).
Proof.
  revert st. induction m as [|[k l] m IH]; intros st; simpl.
  - exists (taskId st), (posted st). split; [lia|]. by destruct st.
  - unfold release_port at 2. simpl.
    pose proof (batch_tasks_state l [] None st) as Hstate.
    pose proof (batch_tasks_shape l [] None st (taskId st) l) as Hshape.
    destruct (batch_tasks l [] None st) as [out st1]. simpl in *.
    destruct Hshape as (_ & Hle & _); try done.
    rewrite send_tasks_state.
    set (P := posted (fold_left (send_task env k) out st1)).
    destruct (IH (set_posted P st1)) as (n & sends & Hn & ->).
    exists n, sends. split; [simpl in *; lia|].
    rewrite Hstate. by destruct st.
Qed.

Lemma Keeps_releasePending_resume (env : Env) (st : SuperMessagePort) :
  Keeps st (releasePending_resume env st).
Proof.
  unfold releasePending_resume.
  destruct (release_all_state env (pending st) st) as (n & sends & Hn & ->).
  split; [unfold Mono; simpl; split_and!; auto|].
  intros HI. apply (Inv_weaken st n Hn) in HI. destruct HI as (Ha & Hq & Hs & Hp).
  unfold Inv. simpl in *. split_and!; try done.
Qed.

Lemma Keeps_step (env : Env) (e : Event) (st : SuperMessagePort) :
  Keeps st (step env st e).
Proof.
  destruct e; simpl.
  - unfold attachPort. eapply Keeps_trans;
      [apply Keeps_attachListenPort|apply Keeps_attachSendPort].
  - apply Keeps_attachListenPort.
  - apply Keeps_attachSendPort.
  - apply Keeps_invoke.
  - apply Keeps_invokeVoid.
  - apply Keeps_invokeExceptSource.
  - apply Keeps_onMessage_task.
  - case_match; [apply Keeps_releasePending_resume|apply Keeps_refl].
  - apply Keeps_pingDeadline.
  - apply Keeps_pingInterval.
  - apply Keeps_handlerSettled.
Qed.

Lemma Keeps_run (env : Env) (events : list Event) (st : SuperMessagePort) :
  Keeps st (run env events st).
Proof.
  revert st. induction events as [|e events IH]; intros st; simpl; [apply Keeps_refl|].
  eapply Keeps_trans; [apply Keeps_step|apply IH].
Qed.

Lemma Inv_constructor : Inv _constructor.
Proof.
  unfold Inv. simpl. split_and!; try done; intros i d H; by rewrite lookup_empty in H.
Qed.

(** X18: in every state the instance reaches with its counter below
    2^53, where [this.taskId++] has been exact all along (the counter
    never decreases), the calls in [awaiting], the queued tasks and the
    Results still owed have ids below the counter, an entry's two
    functions belong to one promise of the heap, and so the next task
    gets a key no entry has and an id no waiting task has. *)
Theorem ids_are_fresh (env : Env) (events : list Event) :
  (Z.of_nat (taskId (run env events _constructor)) < 2 ^ 53)%Z ->
  let st := run env events _constructor in
  (forall pre post, events = pre ++ post ->
     (Z.of_nat (taskId (run env pre _constructor)) < 2 ^ 53)%Z)
  /\ Inv st
  /\ awaiting st !! taskId st = None
  /\ Forall (fun t => task_id t <> taskId st) (concat (map snd (pending st)))
  /\ Forall (fun f => s_resultId f <> taskId st) (suspended st).
Proof.
  intros Hbound st. split.
  { intros pre post ->. unfold run in Hbound. rewrite fold_left_app in Hbound.
    destruct (Keeps_run env post (run env pre _constructor)) as [(Hm & _) _].
    unfold run in *. lia. }
  destruct (Keeps_run env events _constructor) as [_ HI].
  specialize (HI Inv_constructor). fold st in HI. split; [exact HI|].
  destruct HI as (Ha & Hq & Hs & _). split_and!.
  - destruct (awaiting st !! taskId st) as [d|] eqn:Hd; [|done].
    destruct (Ha _ _ Hd) as (? & _). lia.
  - eapply Forall_impl; [exact Hq|]. simpl. intros; lia.
  - eapply Forall_impl; [exact Hs|]. simpl. intros; lia.
Qed.

(** X19: whatever happens, a settled promise keeps its state and value,
    the heap loses no promise and the counter never goes back. *)
Theorem settled_stays_settled (env : Env) (events : list Event) (st : SuperMessagePort) :
  taskId st <= taskId (run env events st)
  /\ length (promises st) <= length (promises (run env events st))
  /\ forall p x, promises st !! p = Some x -> x <> Pending ->
       promises (run env events st) !! p = Some x.
Proof. by destruct (Keeps_run env events st) as [H _]. Qed.

(** X20: in every reachable state a stored ping resolver belongs to a
    ping of that very port that is still pending, so a Pong from a port
    with a resolver always resolves a ping and cancels its deadline. *)
Theorem resolver_has_pending_ping (env : Env) (events : list Event) (port : Port) (k : nat) :
  let st := run env events _constructor in
  pingResolves st !! port = Some k ->
  exists loop,
    pings st !! k = Some {| ping_port := port; ping_loop := loop; ping_status := PingPending |}
    /\ forall task event,
         let st' := processPongTask task port event st in
         pings st' !! k = Some {| ping_port := port; ping_loop := loop;
                                  ping_status := PingResolved |}
         /\ pingDeadline env k st' = st'.
Proof.
  intros st Hres. destruct (Keeps_run env events _constructor) as [_ HI].
  destruct (HI Inv_constructor) as (_ & _ & _ & Hp). fold st in Hp.
  destruct (Hp port k Hres) as [loop Hk]. exists loop. split; [exact Hk|].
  intros task event.
  destruct (processPongTask_effect env st port k loop task event Hres Hk)
    as (_ & H2 & _ & _ & _ & _ & _ & H8 & _).
  by split.
Qed.

(** ** Throwing ports and the service worker *)

Lemma post_each_cut (env : Env) (pre post : list Port) (q : Port) (task : Task) :
  Forall (fun p => post_throws env p task = false) pre ->
  post_throws env q task = true ->
  post_each env (pre ++ q :: post) task = map (fun p => Post p task) (pre ++ [q]).
Proof.
  intros Hpre Hq. induction Hpre as [|p pre Hp _ IH]; simpl.
  - by rewrite Hq.
  - by rewrite Hp, IH.
Qed.

Lemma send_tasks_each (env : Env) (key : PortKey) (out : list Task) (st : SuperMessagePort) :
  posted (fold_left (send_task env key) out st)
    = posted st ++ concat (map (fun t => if IS_SERVICE_WORKER env then [NotifyAll t]
                                         else postMessage env key t st) out).
Proof.
  revert st. induction out as [|t out IH]; intros st; simpl; [by rewrite app_nil_r|].
  rewrite IH. unfold send_task at 1. simpl. rewrite <- app_assoc. f_equal.
Qed.

(** X7: when [postMessage] throws on port [q], the ports after [q] in the
    array do not get that task, the ports before it do; and each task of
    a flush is posted on its own, so the next task is tried on all ports
    again. *)
Theorem throw_cuts_one_broadcast (env : Env) (pre post : list Port) (q : Port)
    (task : Task) (key : PortKey) (out : list Task) (st : SuperMessagePort) :
  Forall (fun p => post_throws env p task = false) pre ->
  post_throws env q task = true ->
  post_each env (pre ++ q :: post) task = map (fun p => Post p task) (pre ++ [q])
  /\ posted (fold_left (send_task env key) out st)
     = posted st ++ concat (map (fun t => if IS_SERVICE_WORKER env then [NotifyAll t]
                                          else postMessage env key t st) out).
Proof.
  intros Hpre Hq. split; [by apply post_each_cut|apply send_tasks_each].
Qed.

Lemma notified_app (a b : list Send) : notified (a ++ b) = notified a ++ notified b.
Proof. apply omap_app. Qed.

Lemma notified_map (out : list Task) : notified (map NotifyAll out) = out.
Proof. induction out as [|t out IH]; simpl; [done|]. by rewrite IH. Qed.

Lemma release_all_notified (env : Env) (m : list (PortKey * list Task))
    (st : SuperMessagePort) :
  IS_SERVICE_WORKER env = true ->
  exists sends,
    posted (fold_left (release_port env) m st) = posted st ++ sends
    /\ Forall (fun s => exists t, s = NotifyAll t) sends
    /\ concat (map unwrap (notified sends)) = concat (map snd m).
Proof.
  intros Hsw. revert st. induction m as [|[k l] m IH]; intros st; simpl.
  - exists []. by rewrite app_nil_r.
  - destruct (IH (release_port env st (k, l))) as (s2 & Hp2 & Hf2 & Hu2).
    unfold release_port in *. simpl in *.
    pose proof (batch_tasks_state l [] None st) as Hstate.
    pose proof (batch_tasks_unwrap l [] None st) as Hun.
    destruct (batch_tasks l [] None st) as [out st1]. simpl in *.
    exists (map NotifyAll out ++ s2). rewrite Hp2, send_tasks_each, Hsw, Hstate. simpl.
    assert (Hc : concat (map (fun t => [NotifyAll t]) out) = map NotifyAll out).
    { clear. induction out as [|t out IH]; simpl; [done|]. by rewrite IH. }
    rewrite Hc, <- app_assoc. split; [done|]. split.
    + apply Forall_app. split; [|done]. apply Forall_forall. intros s Hs.
      apply list_elem_of_fmap in Hs as (t & -> & _). by exists t.
    + rewrite notified_app, notified_map, map_app, concat_app, Hu2. by f_equal.
Qed.

(** X8: in a service worker the flush posts to no port: every outgoing
    task goes to [notifyAll], and unwrapped once they are all queued
    tasks, whatever their destination, queue after queue. *)
Theorem service_worker_flush (env : Env) (st : SuperMessagePort) :
  IS_SERVICE_WORKER env = true ->
  let sends := new_sends st (releasePending_resume env st) in
  Forall (fun s => exists t, s = NotifyAll t) sends
  /\ concat (map unwrap (notified sends)) = concat (map snd (pending st)).
Proof.
  intros Hsw sends.
  destruct (release_all_notified env (pending st) st Hsw) as (s & Hp & Hf & Hu).
  unfold sends, new_sends, releasePending_resume. simpl.
  by rewrite Hp, drop_app_length.
Qed.

(** ** Instances *)

Lemma flush_per_destination_witness :
  occurrences 1 (sendPorts busy0) <= 1
  /\ concat (map unwrap (new_posts busy0 (releasePending_resume demo_env busy0) 1))
     = [InvokeTask 2 "sync" VNull None (Some true) None;
        InvokeTask 4 "defer" VNull None (Some true) (Some []);
        InvokeTask 3 "sync" VNull None (Some true) None].
Proof.
  assert (H : occurrences 1 (sendPorts busy0) <= 1) by (vm_compute; lia).
  split; [exact H|].
  destruct (flush_per_destination demo_env busy0 1 eq_refl (fun _ _ => eq_refl) H) as [Hu _].
  exact Hu.
Defined.

Lemma attachPort_delivers_buffered_witness :
  let st := run demo_env [EInvokeVoid "sync" VNull (Some 1) None;
                          EInvokeVoid "defer" VNull None None] _constructor in
  (1 ∉ sendPorts st)
  /\ concat (map unwrap (new_posts (attachPort demo_env 1 st)
                           (step demo_env (attachPort demo_env 1 st) EFlush) 1))
     = [InvokeTask 0 "sync" VNull None (Some true) None; PingTask 2 None;
        InvokeTask 1 "defer" VNull None (Some true) None].
Proof.
  intros st.
  assert (H : 1 ∉ sendPorts st) by apply not_elem_of_nil.
  split; [exact H|].
  destruct (attachPort_delivers_buffered demo_env st 1 eq_refl (fun _ _ => eq_refl) eq_refl H)
    as (_ & Hu & _).
  exact Hu.
Defined.

Lemma throw_cuts_one_broadcast_witness :
  post_each flaky_env [1; 2; 3] (PingTask 0 None)
    = [Post 1 (PingTask 0 None); Post 2 (PingTask 0 None)].
Proof.
  destruct (throw_cuts_one_broadcast flaky_env [1] [3] 2 (PingTask 0 None) KUndefined []
              _constructor) as [H _].
  - by repeat constructor.
  - reflexivity.
  - exact H.
Defined.

Lemma service_worker_flush_witness :
  concat (map unwrap (notified (new_sends busy0 (releasePending_resume sw_env busy0))))
    = concat (map snd (pending busy0)).
Proof.
  destruct (service_worker_flush sw_env busy0 eq_refl) as [_ H]. exact H.
Defined.

Lemma call_returns_value_witness :
  promises (processResultTask (ResultTask 2 2 (Some (VNumber 7)) None None)
              (snd (invoke "sync" VNull None (Some 1) None window0))) !! 0
    = Some (Fulfilled (VNumber 7)).
Proof.
  pose proof (call_returns_value demo_env window0 worker0 "sync" VNull None (Some 1) None
                None 2 (fun _ _ _ => Returns (VNumber 7)) [] (VNumber 7)
                eq_refl eq_refl eq_refl) as H.
  destruct H as (_ & H & _). exact H.
Defined.

Lemma call_without_listener_witness :
  promises (processResultTask
              (ResultTask 2 2 None (Some (VError "no listener")) None)
              (snd (invoke "absent" VNull None (Some 1) None window0))) !! 0
    = Some (Rejected (VError "no listener")).
Proof.
  pose proof (call_without_listener demo_env window0 worker0 "absent" VNull None (Some 1)
                None None 2 eq_refl eq_refl) as H.
  destruct H as (_ & H & _). exact H.
Defined.

Lemma call_throws_witness :
  promises (processResultTask (ResultTask 2 2 None (Some (VString "boom")) None)
              (snd (invoke "throw" (VString "boom") None (Some 1) None window0))) !! 0
    = Some (Rejected (VString "boom")).
Proof.
  pose proof (call_throws demo_env window0 worker0 "throw" (VString "boom") None (Some 1)
                None None 2 (fun payload _ _ => Throws payload) [] (VString "boom")
                eq_refl eq_refl eq_refl eq_refl) as H.
  destruct H as (_ & H & _). exact H.
Defined.

Lemma call_deferred_witness :
  handlerSettled 0 (Fulfils (VNumber 3))
    (onMessage demo_env {| data := InvokeTask 2 "defer" VNull None None None; source := None;
                           currentTarget := 2 |} worker0)
  = pushTask (ResultTask 2 2 (Some (VNumber 3)) None None) (KPort 2) (set_taskId 3 worker0).
Proof.
  pose proof (call_deferred demo_env window0 worker0 "defer" VNull None (Some 1) None
                None 2 (fun _ _ _ => ReturnsPromise 0) [] 0
                eq_refl eq_refl eq_refl (List.Forall_nil _)) as H.
  destruct H as (_ & H & _). exact (H (Fulfils (VNumber 3))).
Defined.

Lemma call_with_ack_throws_witness :
  promises (processAckTask (AckTask 3 2 true None (Some (VNumber 0)) None)
              (snd (invoke "throw" (VNumber 0) (Some true) (Some 1) None window0))) !! 1
    = Some (Rejected (VNumber 0)).
Proof.
  pose proof (call_with_ack_throws demo_env window0 worker0 "throw" (VNumber 0) (Some true)
                (Some 1) None None 2 (VNumber 0) eq_refl
                (or_intror (ex_intro _ (fun payload _ _ => Throws payload)
                              (ex_intro _ [] (conj eq_refl eq_refl))))) as H.
  destruct H as (_ & _ & H & _). exact H.
Defined.

Lemma reply_after_result_ignored_witness :
  let st' := processResultTask (ResultTask 5 2 (Some VNull) None None)
               (snd (invoke "sync" VNull None (Some 1) None window0)) in
  onMessage demo_env {| data := AckTask 6 2 true (Some VNull) None None; source := None;
                        currentTarget := 1 |} st' = st'.
Proof.
  exact (reply_after_result_ignored demo_env 5 2 (Some VNull) None None
           (AckTask 6 2 true (Some VNull) None None) None 1
           (snd (invoke "sync" VNull None (Some 1) None window0)) eq_refl).
Defined.

Lemma pong_cancels_deadline_witness :
  let st' := processPongTask (PongTask 9 None) 1
               {| data := PongTask 9 None; source := None; currentTarget := 1 |} window0 in
  pingResolves window0 !! 1 = Some 0
  /\ sendPorts st' = sendPorts window0
  /\ pingDeadline demo_env 0 st' = st'.
Proof.
  intros st'. split; [reflexivity|].
  destruct (pong_cancels_deadline demo_env window0 1 0 false (PongTask 9 None)
              {| data := PongTask 9 None; source := None; currentTarget := 1 |}
              eq_refl eq_refl) as (_ & _ & _ & H4 & _ & _ & _ & H8 & _).
  split; [exact H4|exact H8].
Defined.

Lemma worker_ping_loop_witness :
  let st2 := onMessage flaky_env {| data := PongTask 9 None; source := None;
                                    currentTarget := 1 |}
               (attachSendPort flaky_env 1 _constructor) in
  pending_get (KPort 1) (pending (step flaky_env st2 (EPingInterval 1)))
    = [PingTask 0 None; PingTask 1 None].
Proof.
  intros st2.
  destruct (worker_ping_loop flaky_env _constructor 1 9 None None 1 eq_refl)
    as (_ & _ & _ & Hw & _).
  destruct (Hw eq_refl) as [H _]. exact H.
Defined.

Lemma resolver_has_pending_ping_witness :
  exists loop,
    pings window0 !! 0
      = Some {| ping_port := 1; ping_loop := loop; ping_status := PingPending |}.
Proof.
  destruct (resolver_has_pending_ping demo_env [EAttachPort 1; EFlush] 1 0 eq_refl)
    as (loop & H & _).
  exists loop. exact H.
Defined.

Lemma ids_are_fresh_witness :
  let st := run demo_env [EAttachPort 1; EFlush; EInvoke "sync" VNull None (Some 1) None]
              _constructor in
  (Z.of_nat (taskId st) < 2 ^ 53)%Z
  /\ awaiting st !! taskId st = None
  /\ Forall (fun t => task_id t <> taskId st) (concat (map snd (pending st))).
Proof.
  intros st.
  assert (H : (Z.of_nat (taskId st) < 2 ^ 53)%Z) by (vm_compute; reflexivity).
  split; [exact H|].
  destruct (ids_are_fresh demo_env
              [EAttachPort 1; EFlush; EInvoke "sync" VNull None (Some 1) None] H)
    as (_ & _ & Ha & Hq & _).
  split; [exact Ha|exact Hq].
Defined.
